(** * version-manager: the resolver of package gvm

    A shallow embedding of [VersionsImpl] (ListReleases, GetLatestReleaseURL,
    DownloadRelease, ListInstalledVersions, GetInstalledVersion, SortMapKeys,
    InRange) and the properties of its catalogs.

    The Go maps are [gmap string string]; a Go [(value, error)] pair is a
    [result]; a nil pointer dereference is the [Panic] outcome of the [go]
    monad.  The collaborators (the semver library, the GitHub client, the file
    system, go-getter, package path and strings.ToLower) are parameters. *)

From Stdlib Require Import ZArith Ascii String.
From stdpp Require Import base option list gmap strings sorting.

Open Scope string_scope.

(** ** Go values *)

(** An [error] value: one made by a collaborator, or one wrapped by
    [xerrors.Errorf("<prefix>: %w", cause)]. *)
Inductive error : Type :=
| ErrorString (msg : string)
| Errorf (prefix : string) (cause : error).

(** A Go result pair [(v, err)] of which exactly one side is set. *)
Inductive result (A : Type) : Type :=
| Ok (a : A)
| Err (e : error).
Arguments Ok {A} a.
Arguments Err {A} e.

(** The outcome of a call that may dereference a nil pointer. *)
Inductive go (A : Type) : Type :=
| Return (a : A)
| Panic.
Arguments Return {A} a.
Arguments Panic {A}.

#[global] Instance go_ret : MRet go := fun A a => Return a.
#[global] Instance go_bind : MBind go := fun A B k c =>
  match c with
  | Return a => k a
  | Panic => Panic
  end.

Fixpoint go_mapM {A B : Type} (f : A -> go B) (l : list A) : go (list B) :=
  match l with
  | [] => Return []
  | a :: l' => b ← f a; bs ← go_mapM f l'; Return (b :: bs)
  end.

(** ** package strings *)

(** [strings.TrimLeft(s, "v")]: every leading [v] is removed. *)
Fixpoint TrimLeft_v (s : string) : string :=
  match s with
  | String c s' => if Ascii.eqb c "v"%char then TrimLeft_v s' else s
  | EmptyString => EmptyString
  end.

(** [n] times the letter [v]. *)
Fixpoint v_prefix (n : nat) : string :=
  match n with
  | O => EmptyString
  | S n' => String "v" (v_prefix n')
  end.

(** ** The semver library (github.com/Masterminds/semver) *)

(** The part of the library the resolver calls.  [NewVersion] and
    [NewConstraint] return a pointer and an error; [LessThan a b] is
    [a.Compare(b) < 0]. *)
Class Semver : Type := {
  Version : Type;
  Constraints : Type;
  NewVersion : string -> result Version;
  Original : Version -> string;
  LessThan : Version -> Version -> bool;
  NewConstraint : string -> result Constraints;
  Check : Constraints -> Version -> bool
}.

(** ** The resolver *)

(** A release asset and a release of go-github.  The library hands out
    [Name], [BrowserDownloadURL] and [TagName] as pointers, which the
    resolver reads without a check; they are taken here as set, as GitHub
    sends them with every release. *)
Record ReleaseAsset : Type := {
  Name : string;
  BrowserDownloadURL : string
}.

Record RepositoryRelease : Type := {
  TagName : string;
  Assets : list ReleaseAsset
}.

Record Options : Type := {
  Organization : string;
  Repo : string;
  GOOS : string;
  GOARCH : string;
  AssetNameFunc : string -> string -> string -> string;
  ExeNameFunc : string -> string -> string -> string;
  ReleasesPath : string
}.

(** The order in which one [for k := range m] visits the keys of [m]. Go
    leaves it unspecified and changes it from one loop to the next. *)
Definition iteration : Type := gmap string string -> list string.

Definition keys (m : gmap string string) : list string := (map_to_list m).*1.

Definition valid_iteration (rho : iteration) : Prop :=
  forall m, rho m ≡ₚ keys m.

(** ** Collaborators *)

(** What the resolver reaches outside itself: [strings.ToLower], [path.Join],
    the GitHub client's [Repositories.ListReleases] (organization, repository),
    [ioutil.ReadDir], [os.MkdirAll] and go-getter's [GetAny] (destination,
    source).  The last two change the file system [FS] and may fail. *)
Class Platform : Type := {
  FS : Type;
  ToLower : string -> string;
  path_Join : list string -> string;
  client_ListReleases : string -> string -> result (list RepositoryRelease);
  ioutil_ReadDir : FS -> string -> result (list string);
  os_MkdirAll : string -> FS -> option error * FS;
  getter_GetAny : string -> string -> FS -> option error * FS
}.

Section Resolver.

Context {L : Semver} {W : Platform}.

Variable options : Options.

(** [InRange]: the pair [(bool, error)]. *)
Definition InRange (version constraint : string) : bool * option error :=
  match NewConstraint constraint with
  | Err err => (false, Some (Errorf "Invalid sematic version constraint" err))
  | Ok c =>
    match NewVersion version with
    | Err err => (false, Some (Errorf "Invalid sematic version" err))
    | Ok ver => (Check c ver, None)
    end
  end.

(** The inner loop of [ListReleases] over the assets of release [g]. *)
Fixpoint scan_assets (g : RepositoryRelease) (assets : list ReleaseAsset)
    (tags : gmap string string) : gmap string string :=
  match assets with
  | [] => tags
  | a :: rest =>
    let tag := TrimLeft_v (TagName g) in
    let fn := AssetNameFunc options tag (GOOS options) (GOARCH options) in
    if String.eqb (ToLower (Name a)) (ToLower fn)
    then <[TagName g := BrowserDownloadURL a]> tags
    else scan_assets g rest tags
  end.

(** The outer loop of [ListReleases]. *)
Fixpoint ListReleases_loop (constraint : string) (gr : list RepositoryRelease)
    (tags : gmap string string) : result (gmap string string) :=
  match gr with
  | [] => Ok tags
  | g :: gr' =>
    if negb (String.eqb constraint "") then
      match InRange (TagName g) constraint with
      | (_, Some err) => Err (Errorf "Invalid sematic version constraint" err)
      | (valid, None) =>
        if negb valid then ListReleases_loop constraint gr' tags
        else ListReleases_loop constraint gr' (scan_assets g (Assets g) tags)
      end
    else ListReleases_loop constraint gr' (scan_assets g (Assets g) tags)
  end.

Definition ListReleases (constraint : string) : result (gmap string string) :=
  match client_ListReleases (Organization options) (Repo options) with
  | Err err => Err (Errorf "Unable to list Github releases" err)
  | Ok gr => ListReleases_loop constraint gr ∅
  end.

(** The loop of [ListInstalledVersions] over the directory entries. *)
Fixpoint ListInstalledVersions_loop (constraint : string) (files : list string)
    (versions : gmap string string) : gmap string string :=
  match files with
  | [] => versions
  | f :: files' =>
    let body :=
      let tag := TrimLeft_v f in
      <[f := path_Join [ReleasesPath options; f;
                        ExeNameFunc options tag (GOOS options) (GOARCH options)]]>
        versions in
    if negb (String.eqb constraint "") then
      match InRange f constraint with
      | (valid, err) =>
        if match err with Some _ => true | None => false end || negb valid
        then ListInstalledVersions_loop constraint files' versions
        else ListInstalledVersions_loop constraint files' body
      end
    else ListInstalledVersions_loop constraint files' body
  end.

Definition ListInstalledVersions (fs : FS) (constraint : string)
    : result (gmap string string) :=
  match ioutil_ReadDir fs (ReleasesPath options) with
  | Err err => Err (Errorf "Unable to list releases" err)
  | Ok files => Ok (ListInstalledVersions_loop constraint files ∅)
  end.

(** [v, _ := semver.NewVersion(k)]: the pointer is nil when the key does
    not parse. *)
Definition NewVersion_ptr (k : string) : option Version :=
  match NewVersion k with
  | Ok v => Some v
  | Err _ => None
  end.

(** [Collection.Less]: [c[i].LessThan(c[j])] reads both pointers. *)
Definition Collection_Less (a b : option Version) : go bool :=
  match a, b with
  | Some x, Some y => Return (LessThan x y)
  | _, _ => Panic
  end.

(** [v.Original()] on a pointer. *)
Definition Original_ptr (v : option Version) : go string :=
  match v with
  | Some x => Return (Original x)
  | None => Panic
  end.

(** The inner loop of insertionSort: the element [x] at index [j] moves
    left while [Less(j, j-1)]. [before] is the sorted part read from index
    [j-1] down to the start. *)
Fixpoint sift (x : option Version) (before : list (option Version))
    : go (list (option Version)) :=
  match before with
  | [] => Return [x]
  | y :: before' =>
    b ← Collection_Less x y;
    if b : bool then r ← sift x before'; Return (y :: r)
    else Return (x :: y :: before')
  end.

(** The outer loop of insertionSort, [done] being the sorted part in
    reverse. *)
Fixpoint insertionSort (rest done : list (option Version))
    : go (list (option Version)) :=
  match rest with
  | [] => Return (reverse done)
  | x :: rest' => d ← sift x done; insertionSort rest' d
  end.

(** [sort.Sort(semver.Collection(vs))], as the insertion sort that package
    sort runs on a short slice. *)
Definition sort_Sort (vs : list (option Version)) : go (list (option Version)) :=
  insertionSort vs [].

Definition SortMapKeys (rho : iteration) (m : gmap string string)
    (decending : bool) : go (list string) :=
  let vs := NewVersion_ptr <$> rho m in
  vs ← sort_Sort vs;
  if negb decending then go_mapM Original_ptr vs
  else go_mapM Original_ptr (reverse vs).

(** The tail shared by [GetLatestReleaseURL] and [GetInstalledVersion]. *)
Definition latest (rho : iteration) (assets : gmap string string)
    : go (string * string * option error) :=
  ks ← SortMapKeys rho assets false;
  match last ks with
  | None => Return ("", "", None)
  | Some tag => Return (tag, default "" (assets !! tag), None)
  end.

Definition GetLatestReleaseURL (rho : iteration) (constraint : string)
    : go (string * string * option error) :=
  match ListReleases constraint with
  | Err err => Return ("", "", Some err)
  | Ok assets => latest rho assets
  end.

Definition GetInstalledVersion (rho : iteration) (fs : FS) (constraint : string)
    : go (string * string * option error) :=
  match ListInstalledVersions fs constraint with
  | Err err => Return ("", "", Some err)
  | Ok assets => latest rho assets
  end.

(** [DownloadRelease]: the result pair and the file system it leaves. *)
Definition DownloadRelease (tag url : string) (fs : FS) : result string * FS :=
  let dir := path_Join [ReleasesPath options; tag] in
  match os_MkdirAll dir fs with
  | (Some err, fs1) => (Err (Errorf "Unable to create temporary folder" err), fs1)
  | (None, fs1) =>
    let tag' := TrimLeft_v tag in
    let fp := path_Join [dir; ExeNameFunc options tag' (GOOS options) (GOARCH options)] in
    match getter_GetAny dir url fs1 with
    | (Some err, fs2) => (Err (Errorf "Unable to download file" err), fs2)
    | (None, fs2) => (Ok fp, fs2)
    end
  end.

End Resolver.

(** ** A reference instance of the semver library

    After github.com/Masterminds/semver v1.5.0, the version that go.mod
    requires.  Versions follow the library's regular expression
    [v?([0-9]+)(\.[0-9]+)?(\.[0-9]+)?(-pre)?(\+meta)?] and its [Compare].
    Constraints are covered as far as the examples below need them: one
    comparator on a version with its three segments.  The library also reads
    wildcards, partial versions, comma and [||] lists, hyphen ranges and
    blanks after the version, puts the constraint into its error text, and
    keeps a version with a pre-release out of a constraint that has none;
    this instance does none of that, and no theorem stated for every
    [Semver] depends on it. *)
Module Masterminds.

Record Version : Type := {
  major : Z;
  minor : Z;
  patch : Z;
  pre : string;
  metadata : string;
  original : string
}.

Definition is_digit (c : ascii) : bool :=
  let n := nat_of_ascii c in (48 <=? n)%nat && (n <=? 57)%nat.

Definition is_ident (c : ascii) : bool :=
  let n := nat_of_ascii c in
  is_digit c || ((65 <=? n)%nat && (n <=? 90)%nat)
  || ((97 <=? n)%nat && (n <=? 122)%nat) || Ascii.eqb c "-"%char.

(** The longest prefix of digits, and what follows it. *)
Fixpoint digits (s : string) : string * string :=
  match s with
  | String c s' =>
    if is_digit c then let '(d, r) := digits s' in (String c d, r) else ("", s)
  | EmptyString => ("", "")
  end.

(** [[0-9A-Za-z\-]+(\.[0-9A-Za-z\-]+)*]: the matched text and the rest;
    [fresh] says that an identifier has to start here. *)
Fixpoint idents (fresh : bool) (s : string) : option (string * string) :=
  match s with
  | EmptyString => if fresh then None else Some ("", "")
  | String c s' =>
    if is_ident c then
      match idents false s' with
      | Some (m, r) => Some (String c m, r)
      | None => None
      end
    else if fresh then None
    else if Ascii.eqb c "."%char then
      match idents true s' with
      | Some (m, r) => Some (String c m, r)
      | None => Some ("", s)
      end
    else Some ("", s)
  end.

(** An optional group [(\.[0-9]+)?]. *)
Definition dot_digits (s : string) : string * string :=
  match s with
  | String c s' =>
    if Ascii.eqb c "."%char then
      match digits s' with
      | (EmptyString, _) => ("", s)
      | (d, r) => (d, r)
      end
    else ("", s)
  | EmptyString => ("", "")
  end.

(** An optional group [(<sep>idents)?]. *)
Definition tagged (sep : ascii) (s : string) : string * string :=
  match s with
  | String c s' =>
    if Ascii.eqb c sep then
      match idents true s' with
      | Some (m, r) => (m, r)
      | None => ("", s)
      end
    else ("", s)
  | EmptyString => ("", "")
  end.

Fixpoint decimal (acc : Z) (s : string) : Z :=
  match s with
  | String c s' => decimal (10 * acc + (Z.of_nat (nat_of_ascii c) - 48)) s'
  | EmptyString => acc
  end.

(** [strconv.ParseInt(s, 10, 64)] on a string of digits. *)
Definition ParseInt (s : string) : option Z :=
  let n := decimal 0 s in
  if (n <=? 9223372036854775807)%Z then Some n else None.

Definition ErrInvalidSemVer : error := ErrorString "Invalid Semantic Version".

Definition segment (s : string) : result Z :=
  match s with
  | EmptyString => Ok 0%Z
  | _ =>
    match ParseInt s with
    | Some n => Ok n
    | None => Err (ErrorString "Error parsing version segment")
    end
  end.

Definition NewVersion (v : string) : result Version :=
  let s0 := match v with
            | String c s' => if Ascii.eqb c "v"%char then s' else v
            | EmptyString => v
            end in
  match digits s0 with
  | (EmptyString, _) => Err ErrInvalidSemVer
  | (m1, r1) =>
    let '(m2, r2) := dot_digits r1 in
    let '(m3, r3) := dot_digits r2 in
    let '(m5, r5) := tagged "-"%char r3 in
    let '(m8, r8) := tagged "+"%char r5 in
    match r8 with
    | EmptyString =>
      match segment m1, segment m2, segment m3 with
      | Ok a, Ok b, Ok c =>
        Ok {| major := a; minor := b; patch := c;
              pre := m5; metadata := m8; original := v |}
      | Err e, _, _ | _, Err e, _ | _, _, Err e => Err e
      end
    | _ => Err ErrInvalidSemVer
    end
  end.

Definition compareSegment (v o : Z) : Z :=
  if (v <? o)%Z then (-1)%Z else if (o <? v)%Z then 1%Z else 0%Z.

(** [strings.Split(s, ".")]. *)
Fixpoint split_dot (s : string) : list string :=
  match s with
  | EmptyString => [""]
  | String c s' =>
    if Ascii.eqb c "."%char then "" :: split_dot s'
    else match split_dot s' with
         | p :: ps => String c p :: ps
         | [] => [String c ""]
         end
  end.

Definition all_digits (s : string) : bool :=
  match digits s with
  | (_, EmptyString) => true
  | _ => false
  end.

(** [strconv.ParseUint(s, 10, 64)]. *)
Definition ParseUint (s : string) : option Z :=
  match s with
  | EmptyString => None
  | _ =>
    if all_digits s then
      let n := decimal 0 s in
      if (n <=? 18446744073709551615)%Z then Some n else None
    else None
  end.

(** The byte-wise order of Go strings: [s > o]. *)
Fixpoint string_gt (s o : string) : bool :=
  match s, o with
  | EmptyString, _ => false
  | String _ _, EmptyString => true
  | String a s', String b o' =>
    if (nat_of_ascii b <? nat_of_ascii a)%nat then true
    else if (nat_of_ascii a <? nat_of_ascii b)%nat then false
    else string_gt s' o'
  end.

Definition comparePrePart (s o : string) : Z :=
  if String.eqb s o then 0%Z
  else if String.eqb s "" then (-1)%Z
  else if String.eqb o "" then 1%Z
  else
    match ParseUint o, ParseUint s with
    | None, None => if string_gt s o then 1%Z else (-1)%Z
    | None, Some _ => (-1)%Z
    | Some _, None => 1%Z
    | Some oi, Some si => if (oi <? si)%Z then 1%Z else (-1)%Z
    end.

(** The loop of [comparePrerelease]: [l] rounds, a missing part read as
    the empty string. *)
Fixpoint comparePreParts (l : nat) (sparts oparts : list string) : Z :=
  match l with
  | O => 0%Z
  | S l' =>
    let stemp := hd "" sparts in
    let otemp := hd "" oparts in
    let d := comparePrePart stemp otemp in
    if negb (d =? 0)%Z then d else comparePreParts l' (tl sparts) (tl oparts)
  end.

Definition comparePrerelease (v o : string) : Z :=
  let sparts := split_dot v in
  let oparts := split_dot o in
  comparePreParts (Nat.max (length sparts) (length oparts)) sparts oparts.

Definition Compare (v o : Version) : Z :=
  let d := compareSegment (major v) (major o) in
  if negb (d =? 0)%Z then d else
  let d := compareSegment (minor v) (minor o) in
  if negb (d =? 0)%Z then d else
  let d := compareSegment (patch v) (patch o) in
  if negb (d =? 0)%Z then d else
  let ps := pre v in
  let po := pre o in
  if String.eqb ps "" && String.eqb po "" then 0%Z
  else if String.eqb ps "" then 1%Z
  else if String.eqb po "" then (-1)%Z
  else comparePrerelease ps po.

Definition LessThan (v o : Version) : bool := (Compare v o <? 0)%Z.

(** Comparators. *)
Inductive cop : Type :=
| TildeOrEqual | NotEqual | GreaterThan | LessThanOp | GreaterThanEqual
| LessThanEqual | Tilde | Caret.

Record constraint : Type := { function : cop; con : Version }.

Fixpoint skip_spaces (s : string) : string :=
  match s with
  | String c s' => if Ascii.eqb c " "%char then skip_spaces s' else s
  | EmptyString => EmptyString
  end.

(** The operator at the head of a constraint, longest first. *)
Definition operator (s : string) : cop * string :=
  match s with
  | String "!" (String "=" r) => (NotEqual, r)
  | String ">" (String "=" r) => (GreaterThanEqual, r)
  | String "=" (String ">" r) => (GreaterThanEqual, r)
  | String "<" (String "=" r) => (LessThanEqual, r)
  | String "=" (String "<" r) => (LessThanEqual, r)
  | String "~" (String ">" r) => (Tilde, r)
  | String "=" r => (TildeOrEqual, r)
  | String ">" r => (GreaterThan, r)
  | String "<" r => (LessThanOp, r)
  | String "~" r => (Tilde, r)
  | String "^" r => (Caret, r)
  | _ => (TildeOrEqual, s)
  end.

(** A version with its three segments written out. *)
Definition full_version (s : string) : bool :=
  let s0 := match s with
            | String c s' => if Ascii.eqb c "v"%char then s' else s
            | EmptyString => s
            end in
  let '(_, r1) := digits s0 in
  let '(m2, r2) := dot_digits r1 in
  let '(m3, _) := dot_digits r2 in
  negb (String.eqb m2 "") && negb (String.eqb m3 "").

Definition NewConstraint (c : string) : result constraint :=
  let '(f, r) := operator (skip_spaces c) in
  let ver := skip_spaces r in
  if full_version ver then
    match NewVersion ver with
    | Ok v => Ok {| function := f; con := v |}
    | Err _ => Err (ErrorString "improper constraint")
    end
  else Err (ErrorString "improper constraint").

Definition Check (c : constraint) (v : Version) : bool :=
  let o := con c in
  match function c with
  | TildeOrEqual => (Compare v o =? 0)%Z
  | NotEqual => negb (Compare v o =? 0)%Z
  | GreaterThan => (Compare v o =? 1)%Z
  | LessThanOp => (Compare v o <? 0)%Z
  | GreaterThanEqual => (0 <=? Compare v o)%Z
  | LessThanEqual => (Compare v o <=? 0)%Z
  | Tilde =>
    if LessThan v o then false
    else if (major o =? 0)%Z && (minor o =? 0)%Z && (patch o =? 0)%Z then true
    else (major v =? major o)%Z && (minor v =? minor o)%Z
  | Caret =>
    if LessThan v o then false else (major v =? major o)%Z
  end.

Definition semver : Semver :=
  Build_Semver Version constraint NewVersion original LessThan NewConstraint Check.

End Masterminds.


(** ** A test bench

    The collaborators of the package's tests, made concrete: the file system
    is the list of entries of the releases directory, GitHub answers with a
    fixed release list, and every call succeeds. *)
Module Bench.

Definition lower (c : ascii) : ascii :=
  let n := nat_of_ascii c in
  if (65 <=? n)%nat && (n <=? 90)%nat then ascii_of_nat (n + 32) else c.

Fixpoint lower_string (s : string) : string :=
  match s with
  | String c s' => String (lower c) (lower_string s')
  | EmptyString => EmptyString
  end.

(** [path.Join] on elements that are already clean: the non-empty
    elements, separated by a slash. *)
Fixpoint join_slash (elem : list string) : string :=
  match elem with
  | [] => ""
  | e :: elem' =>
    let r := join_slash elem' in
    if String.eqb e "" then r
    else if String.eqb r "" then e
    else e ++ "/" ++ r
  end.

(** The releases directory holds the entries [fs]; a directory cannot be
    made under the root [/proc], and nothing can be fetched from an empty
    URL. *)
Definition platform (gr : list RepositoryRelease) : Platform := {|
  FS := list string;
  ToLower := lower_string;
  path_Join := join_slash;
  client_ListReleases := fun _ _ => Ok gr;
  ioutil_ReadDir := fun fs _ => Ok fs;
  os_MkdirAll := fun dir fs =>
    if String.prefix "/proc/" dir
    then (Some (ErrorString "mkdir: permission denied"), fs)
    else (None, fs);
  getter_GetAny := fun _ url fs =>
    if String.eqb url "" then (Some (ErrorString "download not supported"), fs)
    else (None, fs)
|}.

(** The naming function of [setup] in the tests. *)
Definition nf (ver goos goarch : string) : string :=
  let baseName := "fake-service" in
  if String.eqb goos "darwin" then baseName ++ "-osx"
  else if String.eqb goos "linux" then baseName ++ "-linux"
  else if String.eqb goos "windows" then baseName ++ ".exe"
  else "".

(** The options of [setup], the releases path being [root]. *)
Definition options_in (root : string) : Options := {|
  Organization := "nicholasjackson";
  Repo := "fake-service";
  GOOS := "linux";
  GOARCH := "x64";
  AssetNameFunc := nf;
  ExeNameFunc := nf;
  ReleasesPath := root
|}.

Definition options : Options := options_in "/tmp/releases".

Definition asset (name tag : string) : ReleaseAsset := {|
  Name := name;
  BrowserDownloadURL :=
    "https://github.com/nicholasjackson/fake-service/releases/download/"
      ++ tag ++ "/" ++ name
|}.

Definition release (tag : string) : RepositoryRelease := {|
  TagName := tag;
  Assets := [asset "fake-service-osx" tag; asset "fake-service-linux" tag;
             asset "fake-service.exe" tag]
|}.

(** Two ways of ranging over one map. *)
Definition forwards : iteration := keys.
Definition backwards : iteration := fun m => reverse (keys m).

(** GitHub and the releases directory in the scenarios below. *)
Definition github : Platform :=
  platform [release "v0.14.1"; release "v0.13.0"; release "v0.12.2"].

Definition github_with_latest : Platform :=
  platform [release "latest"; release "v0.14.1"].

Definition offline : Platform := platform [].

Definition installed : list string := ["v0.14.1"; "v0.14.2"].

Definition installed_catalog : gmap string string :=
  {[ "v0.14.1" := "/tmp/releases/v0.14.1/fake-service-linux";
     "v0.14.2" := "/tmp/releases/v0.14.2/fake-service-linux" ]}.

Definition url_of (tag : string) : string :=
  BrowserDownloadURL (asset "fake-service-linux" tag).

(** Catalogs with a tag that is no version, and with two spellings of one
    version. *)
Definition with_latest : gmap string string :=
  {[ "latest" := url_of "latest"; "v0.14.1" := url_of "v0.14.1" ]}.

Definition two_spellings : gmap string string :=
  {[ "1.0.0" := url_of "1.0.0"; "v1.0.0" := url_of "v1.0.0" ]}.

End Bench.


(** ** Specification vocabulary *)

Section Vocabulary.

Context {L : Semver} {W : Platform}.

(** The library hands back the text it parsed. *)
Definition keeps_original : Prop :=
  forall s v, NewVersion s = Ok v -> Original v = s.

Definition parses (k : string) : Prop := exists v, NewVersion k = Ok v.

(** [precedes k1 k2]: both tags are versions and the second is not lower
    than the first. *)
Definition precedes (k1 k2 : string) : Prop :=
  exists v1 v2, NewVersion k1 = Ok v1 /\ NewVersion k2 = Ok v2 /\
                LessThan v2 v1 = false.

(** Precedence is a total preorder on the tags [ks]. *)
Definition precedence_on (ks : list string) : Prop :=
  (forall k1 k2, k1 ∈ ks -> k2 ∈ ks -> precedes k1 k2 \/ precedes k2 k1) /\
  (forall k1 k2 k3, k1 ∈ ks -> k2 ∈ ks -> k3 ∈ ks ->
     precedes k1 k2 -> precedes k2 k3 -> precedes k1 k3).

(** No two different tags of [ks] have the same precedence. *)
Definition no_ties (ks : list string) : Prop :=
  forall k1 k2, k1 ∈ ks -> k2 ∈ ks -> precedes k1 k2 -> precedes k2 k1 -> k1 = k2.

(** The asset of release [g] that the naming function asks for. *)
Definition asset_matches (options : Options) (g : RepositoryRelease)
    (a : ReleaseAsset) : Prop :=
  ToLower (Name a) =
  ToLower (AssetNameFunc options (TrimLeft_v (TagName g))
             (GOOS options) (GOARCH options)).

(** The path recorded for the installed entry [f]. *)
Definition installed_path (options : Options) (f : string) : string :=
  path_Join [ReleasesPath options; f;
             ExeNameFunc options (TrimLeft_v f) (GOOS options) (GOARCH options)].

(** The path that [DownloadRelease] returns for [tag]. *)
Definition download_path (options : Options) (tag : string) : string :=
  path_Join [path_Join [ReleasesPath options; tag];
             ExeNameFunc options (TrimLeft_v tag) (GOOS options) (GOARCH options)].

(** Joining a joined pair with a third element is joining the three. *)
Definition Join_nests : Prop :=
  forall a b c, path_Join [path_Join [a; b]; c] = path_Join [a; b; c].

(** Release [g] gets through the constraint check of [ListReleases]. *)
Definition passes (constraint : string) (g : RepositoryRelease) : Prop :=
  constraint = "" \/ InRange (TagName g) constraint = (true, None).

(** The outcome of a selector that picked an entry of [assets]. *)
Definition picks (assets : gmap string string)
    (r : go (string * string * option error)) : Prop :=
  exists tag location, r = Return (tag, location, None) /\
                       assets !! tag = Some location.

End Vocabulary.

(** Insertion sort on values that are all present, as [sift] and
    [insertionSort] behave when no pointer is nil. *)
Fixpoint sift_total {A : Type} (lt : A -> A -> bool) (x : A) (before : list A)
    : list A :=
  match before with
  | [] => [x]
  | y :: before' =>
    if lt x y then y :: sift_total lt x before' else x :: y :: before'
  end.

Fixpoint insertionSort_total {A : Type} (lt : A -> A -> bool)
    (rest done : list A) : list A :=
  match rest with
  | [] => reverse done
  | x :: rest' => insertionSort_total lt rest' (sift_total lt x done)
  end.

(** [a] is not above [b]. *)
Definition at_most {A : Type} (lt : A -> A -> bool) (a b : A) : Prop :=
  lt b a = false.

Section SortVocabulary.

Context {L : Semver}.

(** What [insertionSort] has sorted so far holds no nil pointer, unless it
    is a single nil. *)
Definition sift_safe (done : list (option Version)) : Prop :=
  done = [None] \/ Forall is_Some done.

(** [vs] are the versions that the tags [ks] parse to. *)
Definition parsed (ks : list string) (vs : list Version) : Prop :=
  Forall2 (fun k v => NewVersion k = Ok v) ks vs.

(** The keys in the order of precedence that [sort.Sort] leaves them in. *)
Definition sorted_keys (vs : list Version) : list string :=
  Original <$> insertionSort_total LessThan vs [].

(** The same notions as tests, for catalogs that are written out. *)
Definition parsesb (k : string) : bool :=
  match NewVersion k with
  | Ok _ => true
  | Err _ => false
  end.

Definition precedesb (k1 k2 : string) : bool :=
  match NewVersion k1, NewVersion k2 with
  | Ok v1, Ok v2 => negb (LessThan v2 v1)
  | _, _ => false
  end.

Definition precedence_onb (ks : list string) : bool :=
  forallb (fun k1 => forallb (fun k2 => precedesb k1 k2 || precedesb k2 k1) ks) ks
  && forallb (fun k1 => forallb (fun k2 => forallb (fun k3 =>
       implb (precedesb k1 k2 && precedesb k2 k3) (precedesb k1 k3)) ks) ks) ks.

Definition no_tiesb (ks : list string) : bool :=
  forallb (fun k1 => forallb (fun k2 =>
    implb (precedesb k1 k2 && precedesb k2 k1) (String.eqb k1 k2)) ks) ks.

End SortVocabulary.

(** ** The constructor *)

Section Constructor.

(** [runtime.GOOS] and [runtime.GOARCH] of the running program. *)
Variables runtime_GOOS runtime_GOARCH : string.

(** [o.GOARCH = a] and [o.GOOS = s] on the copy of the options. *)
Definition set_GOARCH (o : Options) (a : string) : Options := {|
  Organization := Organization o;
  Repo := Repo o;
  GOOS := GOOS o;
  GOARCH := a;
  AssetNameFunc := AssetNameFunc o;
  ExeNameFunc := ExeNameFunc o;
  ReleasesPath := ReleasesPath o
|}.

Definition set_GOOS (o : Options) (s : string) : Options := {|
  Organization := Organization o;
  Repo := Repo o;
  GOOS := s;
  GOARCH := GOARCH o;
  AssetNameFunc := AssetNameFunc o;
  ExeNameFunc := ExeNameFunc o;
  ReleasesPath := ReleasesPath o
|}.

(** [New]: the options that the new [VersionsImpl] holds. *)
Definition New (o : Options) : Options :=
  let o := if String.eqb (GOARCH o) "" then set_GOARCH o runtime_GOARCH else o in
  let o := if String.eqb (GOOS o) "" then set_GOOS o runtime_GOOS else o in
  o.

End Constructor.

(** ** The resolver of gvm.go

    The file gvm.go holds the resolver as it was before [InRange] and
    [SortMapKeys] were split off: the naming functions take the platform
    only, the constraint and the tag are parsed in the loops, and
    [DownloadRelease] fetches with go-getter's [GetFile]. *)
Module Legacy.

Record Options : Type := {
  Organization : string;
  Repo : string;
  GOOS : string;
  GOARCH : string;
  AssetNameFunc : string -> string -> string;
  ExeNameFunc : string -> string -> string;
  ReleasesPath : string
}.

Section Resolver.

Context {L : Semver} {W : Platform}.

(** go-getter's [GetFile] (destination file, source). *)
Variable getter_GetFile : string -> string -> FS -> option error * FS.

Variable options : Options.

(** The inner loop of [ListReleases] over the assets of release [g]. *)
Fixpoint scan_assets (fn : string) (g : RepositoryRelease)
    (assets : list ReleaseAsset) (tags : gmap string string)
    : gmap string string :=
  match assets with
  | [] => tags
  | a :: rest =>
    if String.eqb (ToLower (Name a)) (ToLower fn)
    then <[TagName g := BrowserDownloadURL a]> tags
    else scan_assets fn g rest tags
  end.

(** The outer loop of [ListReleases]. *)
Fixpoint ListReleases_loop (fn constraint : string) (gr : list RepositoryRelease)
    (tags : gmap string string) : result (gmap string string) :=
  match gr with
  | [] => Ok tags
  | g :: gr' =>
    if negb (String.eqb constraint "") then
      match NewConstraint constraint with
      | Err err => Err (Errorf "Invalid sematic version constraint" err)
      | Ok c =>
        match NewVersion (TagName g) with
        | Err _ => ListReleases_loop fn constraint gr' tags
        | Ok v =>
          if negb (Check c v) then ListReleases_loop fn constraint gr' tags
          else ListReleases_loop fn constraint gr'
                 (scan_assets fn g (Assets g) tags)
        end
      end
    else ListReleases_loop fn constraint gr' (scan_assets fn g (Assets g) tags)
  end.

Definition ListReleases (constraint : string) : result (gmap string string) :=
  match client_ListReleases (Organization options) (Repo options) with
  | Err err => Err (Errorf "Unable to list Github releases" err)
  | Ok gr =>
    let fn := AssetNameFunc options (GOOS options) (GOARCH options) in
    ListReleases_loop fn constraint gr ∅
  end.

(** The tail shared by [GetLatestReleaseURL] and [GetInstalledVersion]:
    the keys are parsed and sorted, and the last one is looked up. *)
Definition latest (rho : iteration) (assets : gmap string string)
    : go (string * string * option error) :=
  let vs := NewVersion_ptr <$> rho assets in
  vs ← sort_Sort vs;
  match last vs with
  | None => Return ("", "", None)
  | Some v =>
    tag ← Original_ptr v;
    Return (tag, default "" (assets !! tag), None)
  end.

Definition GetLatestReleaseURL (rho : iteration) (constraint : string)
    : go (string * string * option error) :=
  match ListReleases constraint with
  | Err err => Return ("", "", Some err)
  | Ok assets => latest rho assets
  end.

Definition DownloadRelease (tag url : string) (fs : FS) : result string * FS :=
  let dir := path_Join [ReleasesPath options; tag] in
  match os_MkdirAll dir fs with
  | (Some err, fs1) => (Err (Errorf "Unable to create temporary folder" err), fs1)
  | (None, fs1) =>
    let fp := path_Join [dir; ExeNameFunc options (GOOS options) (GOARCH options)] in
    match getter_GetFile fp url fs1 with
    | (Some err, fs2) => (Err (Errorf "Unable to download file" err), fs2)
    | (None, fs2) => (Ok fp, fs2)
    end
  end.

(** The loop of [ListInstalledVersions] over the directory entries. *)
Fixpoint ListInstalledVersions_loop (constraint : string) (files : list string)
    (versions : gmap string string) : result (gmap string string) :=
  match files with
  | [] => Ok versions
  | f :: files' =>
    let body :=
      <[f := path_Join [ReleasesPath options; f;
                        ExeNameFunc options (GOOS options) (GOARCH options)]]>
        versions in
    if negb (String.eqb constraint "") then
      match NewConstraint constraint with
      | Err err => Err (Errorf "Invalid sematic version constraint" err)
      | Ok c =>
        match NewVersion f with
        | Err _ => ListInstalledVersions_loop constraint files' versions
        | Ok v =>
          if negb (Check c v)
          then ListInstalledVersions_loop constraint files' versions
          else ListInstalledVersions_loop constraint files' body
        end
      end
    else ListInstalledVersions_loop constraint files' body
  end.

Definition ListInstalledVersions (fs : FS) (constraint : string)
    : result (gmap string string) :=
  match ioutil_ReadDir fs (ReleasesPath options) with
  | Err err => Err (Errorf "Unable to list releases" err)
  | Ok files => ListInstalledVersions_loop constraint files ∅
  end.

Definition GetInstalledVersion (rho : iteration) (fs : FS) (constraint : string)
    : go (string * string * option error) :=
  match ListInstalledVersions fs constraint with
  | Err err => Return ("", "", Some err)
  | Ok assets => latest rho assets
  end.

End Resolver.

End Legacy.

(** The options of gvm.go as options of the present resolver: the naming
    functions do not look at the version. *)
Definition of_legacy (o : Legacy.Options) : Options := {|
  Organization := Legacy.Organization o;
  Repo := Legacy.Repo o;
  GOOS := Legacy.GOOS o;
  GOARCH := Legacy.GOARCH o;
  AssetNameFunc := fun _ => Legacy.AssetNameFunc o;
  ExeNameFunc := fun _ => Legacy.ExeNameFunc o;
  ReleasesPath := Legacy.ReleasesPath o
|}.

(** Scenarios for the properties below: the options of the README for
    gvm.go, a second release under the tag [v0.14.1], and a releases
    directory with a stray entry. *)
Module Scenarios.

Definition nf (goos goarch : string) : string := Bench.nf "" goos goarch.

Definition legacy_options : Legacy.Options := {|
  Legacy.Organization := "nicholasjackson";
  Legacy.Repo := "fake-service";
  Legacy.GOOS := "linux";
  Legacy.GOARCH := "x64";
  Legacy.AssetNameFunc := nf;
  Legacy.ExeNameFunc := nf;
  Legacy.ReleasesPath := "/tmp/releases"
|}.

Definition mirrored : RepositoryRelease := {|
  TagName := "v0.14.1";
  Assets := [Bench.asset "fake-service-osx" "mirror";
             Bench.asset "fake-service-linux" "mirror"]
|}.

Definition github_twice : Platform :=
  Bench.platform [Bench.release "v0.14.1"; mirrored; Bench.release "v0.13.0"].

Definition with_stray : list string := [".DS_Store"; "v0.14.1"].

Definition blank : Options := {|
  Organization := "nicholasjackson";
  Repo := "fake-service";
  GOOS := "";
  GOARCH := "arm64";
  AssetNameFunc := Bench.nf;
  ExeNameFunc := Bench.nf;
  ReleasesPath := "/tmp/releases"
|}.

End Scenarios.

Section CatalogVocabulary.

Context {L : Semver} {W : Platform}.

(** The tag [k] gets through the constraint check of the listings. *)
Definition admitted (constraint k : string) : Prop :=
  constraint = "" \/ InRange k constraint = (true, None).

(** Release [g] puts an entry into the catalog of [ListReleases]. *)
Definition contributes (options : Options) (constraint : string)
    (g : RepositoryRelease) : Prop :=
  passes constraint g /\ Exists (asset_matches options g) (Assets g).

(** The constraint check of [ListReleases] as a test. *)
Definition passesb (constraint : string) (g : RepositoryRelease) : bool :=
  String.eqb constraint "" ||
  match InRange (TagName g) constraint with
  | (true, None) => true
  | _ => false
  end.

(** The asset scan in the words of the specification: the first asset, in
    the order given, whose name is the expected file name up to case. *)
Definition first_matching_asset (options : Options) (g : RepositoryRelease)
    : option ReleaseAsset :=
  List.find
    (fun a => String.eqb (ToLower (Name a))
                (ToLower (AssetNameFunc options (TrimLeft_v (TagName g))
                            (GOOS options) (GOARCH options))))
    (Assets g).

(** What one release adds to the catalog: the URL of its first matching
    asset under its tag, or nothing. *)
Definition record_release (options : Options) (tags : gmap string string)
    (g : RepositoryRelease) : gmap string string :=
  match first_matching_asset options g with
  | Some a => <[TagName g := BrowserDownloadURL a]> tags
  | None => tags
  end.

(** The first asset of [g] with the name asked for. *)
Definition first_asset (options : Options) (g : RepositoryRelease)
    (a : ReleaseAsset) : Prop :=
  exists before after,
    Assets g = (before ++ a :: after)%list /\
    Forall (fun b => ~ asset_matches options g b) before /\
    asset_matches options g a.

(** A selector returned with an error. *)
Definition fails_with (r : go (string * string * option error)) (e : error) : Prop :=
  r = Return ("", "", Some e).

(** The outcome of a selector that picked an entry of [assets] whose tag no
    other key is above. *)
Definition picks_highest (assets : gmap string string)
    (r : go (string * string * option error)) : Prop :=
  exists tag location,
    r = Return (tag, location, None) /\ assets !! tag = Some location /\
    forall k, is_Some (assets !! k) -> precedes k tag.

End CatalogVocabulary.

(** * Properties *)

(** ** The asset scan of ListReleases *)

Section AssetScan.

Context {L : Semver} {W : Platform}.
Variable options : Options.

Lemma scan_assets_none g assets tags :
  Forall (fun b => ~ asset_matches options g b) assets ->
  scan_assets options g assets tags = tags.
Proof.
  induction 1 as [|b rest Hb _ IH]; simpl; [done|].
  unfold asset_matches in Hb.
  destruct (String.eqb_spec (ToLower (Name b))
    (ToLower (AssetNameFunc options (TrimLeft_v (TagName g))
                (GOOS options) (GOARCH options)))); [done|apply IH].
Qed.

Lemma scan_assets_first g before a after tags :
  Forall (fun b => ~ asset_matches options g b) before ->
  asset_matches options g a ->
  scan_assets options g (before ++ a :: after)%list tags =
  <[TagName g := BrowserDownloadURL a]> tags.
Proof.
  intros Hbefore Ha.
  induction Hbefore as [|b rest Hb _ IH]; simpl.
  - unfold asset_matches in Ha. rewrite Ha. by rewrite String.eqb_refl.
  - unfold asset_matches in Hb.
    destruct (String.eqb_spec (ToLower (Name b))
      (ToLower (AssetNameFunc options (TrimLeft_v (TagName g))
                  (GOOS options) (GOARCH options)))); [done|apply IH].
Qed.

(** Either no asset matches, or the list splits at its first match. *)
Lemma first_match g assets :
  Forall (fun b => ~ asset_matches options g b) assets \/
  exists before a after,
    assets = (before ++ a :: after)%list /\
    Forall (fun b => ~ asset_matches options g b) before /\
    asset_matches options g a.
Proof.
  induction assets as [|b rest IH]; [by left|].
  destruct (String.eqb_spec (ToLower (Name b))
    (ToLower (AssetNameFunc options (TrimLeft_v (TagName g))
                (GOOS options) (GOARCH options)))) as [Heq|Hne].
  - right. exists [], b, rest. by repeat split.
  - destruct IH as [Hnone|(before & a & after & -> & Hbefore & Ha)].
    + left. by constructor.
    + right. exists (b :: before), a, after. repeat split; [|done].
      by constructor.
Qed.

Lemma ListReleases_loop_passes constraint g gr tags :
  passes constraint g ->
  ListReleases_loop options constraint (g :: gr) tags =
  ListReleases_loop options constraint gr (scan_assets options g (Assets g) tags).
Proof.
  intros [->|Hin]; simpl; [done|].
  rewrite Hin. by destruct (String.eqb constraint "").
Qed.

End AssetScan.

(** ** The catalogs of ListReleases and ListInstalledVersions *)

Section Catalogs.

Context {L : Semver} {W : Platform}.
Variable options : Options.

Lemma InRange_bad_constraint version constraint e :
  NewConstraint constraint = Err e ->
  InRange version constraint =
  (false, Some (Errorf "Invalid sematic version constraint" e)).
Proof. unfold InRange. by intros ->. Qed.

Lemma InRange_bad_version version constraint c e :
  NewConstraint constraint = Ok c ->
  NewVersion version = Err e ->
  InRange version constraint = (false, Some (Errorf "Invalid sematic version" e)).
Proof. unfold InRange. by intros -> ->. Qed.

Lemma InRange_checked version constraint c v :
  NewConstraint constraint = Ok c ->
  NewVersion version = Ok v ->
  InRange version constraint = (Check c v, None).
Proof. unfold InRange. by intros -> ->. Qed.

(** *** ListReleases *)

(** With a constraint that parses, the first tag that is not a version
    ends the listing with the error of [InRange]. *)
Lemma ListReleases_loop_bad_tag constraint c gr tags :
  constraint <> "" ->
  NewConstraint constraint = Ok c ->
  Exists (fun g => ~ parses (TagName g)) gr ->
  exists e, ListReleases_loop options constraint gr tags =
            Err (Errorf "Invalid sematic version constraint"
                   (Errorf "Invalid sematic version" e)).
Proof.
  intros Hne Hc Hbad. revert tags.
  induction gr as [|g gr IH]; intros tags; [by apply Exists_nil in Hbad|].
  simpl. destruct (String.eqb_spec constraint "") as [|_]; [done|]. simpl.
  destruct (NewVersion (TagName g)) as [v|e] eqn:Hv.
  - rewrite (InRange_checked _ _ _ _ Hc Hv).
    assert (Exists (fun g => ~ parses (TagName g)) gr) as Hrest.
    { apply Exists_cons in Hbad as [Hg|]; [|done].
      destruct Hg. by exists v. }
    destruct (Check c v); simpl; by apply IH.
  - rewrite (InRange_bad_version _ _ _ _ Hc Hv). by exists e.
Qed.

Lemma scan_assets_lookup g assets tags k u :
  scan_assets options g assets tags !! k = Some u ->
  tags !! k = Some u \/
  exists a, a ∈ assets /\ TagName g = k /\ BrowserDownloadURL a = u /\
            asset_matches options g a.
Proof.
  induction assets as [|b rest IH]; simpl; [by left|].
  destruct (String.eqb_spec (ToLower (Name b))
    (ToLower (AssetNameFunc options (TrimLeft_v (TagName g))
                (GOOS options) (GOARCH options)))) as [Heq|_].
  - destruct (decide (TagName g = k)) as [<-|Hk].
    + rewrite lookup_insert_eq. intros [= <-]. right. exists b.
      split; [by left|done].
    + rewrite lookup_insert_ne by done. by left.
  - intros [?|(a & Ha & ?)]%IH; [by left|]. right. exists a.
    split; [by right|done].
Qed.

Lemma scan_assets_keeps g assets tags k :
  is_Some (tags !! k) -> is_Some (scan_assets options g assets tags !! k).
Proof.
  intros Hk. induction assets as [|b rest IH]; simpl; [done|].
  destruct (String.eqb _ _); [|done].
  destruct (decide (TagName g = k)) as [<-|Hne].
  - rewrite lookup_insert_eq. by eexists.
  - by rewrite lookup_insert_ne.
Qed.

Lemma scan_assets_match g assets tags a :
  a ∈ assets -> asset_matches options g a ->
  is_Some (scan_assets options g assets tags !! TagName g).
Proof.
  intros Ha Hm.
  destruct (first_match options g assets)
    as [Hnone|(before & b & after & -> & Hbefore & Hb)].
  - rewrite Forall_forall in Hnone. by destruct (Hnone a).
  - rewrite scan_assets_first by done. rewrite lookup_insert_eq. by eexists.
Qed.

Lemma ListReleases_loop_lookup constraint gr tags m k u :
  ListReleases_loop options constraint gr tags = Ok m ->
  m !! k = Some u ->
  tags !! k = Some u \/
  exists g a, g ∈ gr /\ a ∈ Assets g /\ TagName g = k /\
              BrowserDownloadURL a = u /\ asset_matches options g a.
Proof.
  revert tags. induction gr as [|g gr IH]; intros tags; simpl.
  - intros [= <-]. by left.
  - assert (forall tags',
      ListReleases_loop options constraint gr tags' = Ok m ->
      m !! k = Some u ->
      (tags' = tags \/ tags' = scan_assets options g (Assets g) tags) ->
      tags !! k = Some u \/
      exists g0 a, g0 ∈ g :: gr /\ a ∈ Assets g0 /\ TagName g0 = k /\
                   BrowserDownloadURL a = u /\ asset_matches options g0 a)
      as Hstep.
    { intros tags' Hloop Hm Htags'.
      destruct (IH _ Hloop Hm) as [Hk|(g0 & a & Hg0 & Hrest)].
      - destruct Htags' as [->| ->]; [by left|].
        apply scan_assets_lookup in Hk as [?|(a & Ha & Hrest)]; [by left|].
        right. exists g, a. split; [by left|done].
      - right. exists g0, a. split; [by right|done]. }
    destruct (negb (String.eqb constraint "")).
    + destruct (InRange (TagName g) constraint) as [valid [err|]]; [done|].
      destruct valid; simpl; intros Hloop Hm; eapply Hstep; eauto.
    + intros Hloop Hm; eapply Hstep; eauto.
Qed.

(** Without a constraint the listing is the fold of the asset scan. *)
Lemma ListReleases_loop_unconstrained gr tags :
  ListReleases_loop options "" gr tags =
  Ok (foldl (fun t g => scan_assets options g (Assets g) t) tags gr).
Proof. revert tags. induction gr as [|g gr IH]; intros tags; simpl; [done|apply IH]. Qed.

Lemma scan_fold_keeps gr tags k :
  is_Some (tags !! k) ->
  is_Some (foldl (fun t g => scan_assets options g (Assets g) t) tags gr !! k).
Proof.
  revert tags. induction gr as [|g gr IH]; intros tags Hk; simpl; [done|].
  by apply IH, scan_assets_keeps.
Qed.

Lemma scan_fold_match gr tags g a :
  g ∈ gr -> a ∈ Assets g -> asset_matches options g a ->
  is_Some (foldl (fun t g => scan_assets options g (Assets g) t) tags gr
             !! TagName g).
Proof.
  intros Hg Ha Hm. revert tags.
  induction gr as [|g0 gr IH]; intros tags; [by apply elem_of_nil in Hg|].
  simpl. apply elem_of_cons in Hg as [<-|Hg]; [|by apply IH].
  eapply scan_fold_keeps, scan_assets_match; eauto.
Qed.

(** *** ListInstalledVersions *)

Lemma ListInstalledVersions_loop_bad_constraint constraint e files versions :
  constraint <> "" ->
  NewConstraint constraint = Err e ->
  ListInstalledVersions_loop options constraint files versions = versions.
Proof.
  intros Hne Hc. induction files as [|f files IH]; simpl; [done|].
  destruct (String.eqb_spec constraint "") as [|_]; [done|]. simpl.
  by rewrite (InRange_bad_constraint _ _ _ Hc).
Qed.

Lemma ListInstalledVersions_loop_lookup constraint files versions k p :
  ListInstalledVersions_loop options constraint files versions !! k = Some p ->
  versions !! k = Some p \/ (k ∈ files /\ p = installed_path options k).
Proof.
  unfold installed_path.
  revert versions. induction files as [|f files IH]; intros versions; simpl.
  - by left.
  - assert (forall versions',
      ListInstalledVersions_loop options constraint files versions' !! k = Some p ->
      (versions' = versions \/ versions' = <[f := installed_path options f]> versions) ->
      versions !! k = Some p \/ (k ∈ f :: files /\ p = installed_path options k))
      as Hstep.
    { intros versions' Hk Hv'.
      destruct (IH _ Hk) as [Hk'|[Hin ->]].
      - destruct Hv' as [->| ->]; [by left|].
        destruct (decide (f = k)) as [<-|Hne].
        + rewrite lookup_insert_eq in Hk'. injection Hk' as <-.
          right. split; [by left|done].
        + rewrite lookup_insert_ne in Hk' by done. by left.
      - right. split; [by right|done]. }
    destruct (negb (String.eqb constraint "")).
    + destruct (InRange f constraint) as [valid err].
      destruct (_ || _); intros Hk; eapply Hstep; eauto.
    + intros Hk; eapply Hstep; eauto.
Qed.

Lemma ListInstalledVersions_loop_unconstrained files versions f :
  f ∈ files ->
  ListInstalledVersions_loop options "" files versions !! f =
  Some (installed_path options f).
Proof.
  pose proof ListInstalledVersions_loop_lookup as Hlookup.
  unfold installed_path in *.
  revert versions. induction files as [|f0 files IH]; intros versions Hf.
  { by apply elem_of_nil in Hf. }
  simpl. destruct (decide (f ∈ files)) as [Hin|Hnotin]; [by apply IH|].
  apply elem_of_cons in Hf as [->|]; [|done].
  destruct (ListInstalledVersions_loop options "" files _ !! f0) as [p|] eqn:Hp.
  - apply Hlookup in Hp as [Hp|[_ ->]]; [|done].
    by rewrite lookup_insert_eq in Hp.
  - assert (forall vs, is_Some (vs !! f0) ->
      is_Some (ListInstalledVersions_loop options "" files vs !! f0)) as Hkeep.
    { clear. induction files as [|f1 files IH]; intros vs Hvs; simpl; [done|].
      apply IH. destruct (decide (f1 = f0)) as [->|Hne].
      - rewrite lookup_insert_eq. by eexists.
      - by rewrite lookup_insert_ne. }
    exfalso. eapply is_Some_None. rewrite <- Hp. apply Hkeep.
    rewrite lookup_insert_eq. by eexists.
Qed.

End Catalogs.

(** ** Insertion sort *)

Section InsertionSort.

Context {A : Type} (lt : A -> A -> bool).

Lemma sift_total_Permutation x before : sift_total lt x before ≡ₚ x :: before.
Proof.
  induction before as [|y before IH]; simpl; [done|].
  destruct (lt x y); [|done]. rewrite IH. apply Permutation_swap.
Qed.

Lemma insertionSort_total_Permutation rest done :
  insertionSort_total lt rest done ≡ₚ (rest ++ done)%list.
Proof.
  revert done. induction rest as [|x rest IH]; intros done; simpl.
  - apply reverse_Permutation.
  - rewrite IH, sift_total_Permutation. by rewrite Permutation_middle.
Qed.

Lemma StronglySorted_reverse (R : relation A) l :
  StronglySorted (flip R) l -> StronglySorted R (reverse l).
Proof.
  induction 1 as [|x l _ IH Hx]; [by rewrite reverse_nil; constructor|].
  rewrite reverse_cons. apply StronglySorted_app_2; [|done|repeat constructor].
  intros a b Ha ->%list_elem_of_singleton. rewrite elem_of_reverse in Ha.
  rewrite Forall_forall in Hx. by apply (Hx a).
Qed.

(** The order laws, asked only of the values in [U]. *)
Variable U : A -> Prop.
Hypothesis at_most_total : forall a b, U a -> U b -> at_most lt a b \/ at_most lt b a.
Hypothesis at_most_trans :
  forall a b c, U a -> U b -> U c -> at_most lt a b -> at_most lt b c -> at_most lt a c.

Lemma sift_total_sorted x before :
  U x -> Forall U before ->
  StronglySorted (flip (at_most lt)) before ->
  StronglySorted (flip (at_most lt)) (sift_total lt x before).
Proof.
  intros Hx HU Hsorted. revert HU.
  induction Hsorted as [|y before Hsorted IH Hy]; intros HU; simpl.
  { repeat constructor. }
  apply Forall_cons in HU as [HUy HU].
  rewrite Forall_forall in Hy.
  destruct (lt x y) eqn:Hlt.
  - constructor; [by apply IH|].
    apply Forall_forall. intros z Hz. rewrite sift_total_Permutation in Hz.
    apply elem_of_cons in Hz as [->|Hz]; [|by apply Hy].
    unfold flip. destruct (at_most_total x y Hx HUy) as [?|Hyx]; [done|].
    unfold at_most in Hyx. congruence.
  - constructor; [by constructor; [|apply Forall_forall]|].
    apply Forall_cons. split; [done|].
    apply Forall_forall. intros z Hz. unfold flip.
    rewrite Forall_forall in HU.
    apply (at_most_trans z y x); auto. by apply Hy.
Qed.

Lemma insertionSort_total_sorted rest done :
  Forall U rest -> Forall U done ->
  StronglySorted (flip (at_most lt)) done ->
  StronglySorted (at_most lt) (insertionSort_total lt rest done).
Proof.
  revert done. induction rest as [|x rest IH]; intros done Hrest Hdone Hsorted.
  - by apply StronglySorted_reverse.
  - apply Forall_cons in Hrest as [Hx Hrest]. simpl. apply IH; [done| |].
    + rewrite sift_total_Permutation. by constructor.
    + by apply sift_total_sorted.
Qed.

End InsertionSort.

(** ** SortMapKeys *)

Section Sorting.

Context {L : Semver}.

(** *** The sort on pointers that are all set *)

Lemma sift_Some x before :
  sift (Some x) (Some <$> before) = Return (Some <$> sift_total LessThan x before).
Proof.
  induction before as [|y before IH]; [done|].
  cbn [fmap list_fmap sift sift_total Collection_Less mbind go_bind].
  destruct (LessThan x y); [|done].
  change (list_fmap _ _ Some before) with (Some <$> before).
  by rewrite IH.
Qed.

Lemma insertionSort_Some rest done :
  insertionSort (Some <$> rest) (Some <$> done) =
  Return (Some <$> insertionSort_total LessThan rest done).
Proof.
  revert done. induction rest as [|x rest IH]; intros done.
  - simpl. by rewrite fmap_reverse.
  - cbn [fmap list_fmap insertionSort insertionSort_total].
    change (list_fmap _ _ Some ?l) with (Some <$> l).
    rewrite sift_Some. apply IH.
Qed.

Lemma go_mapM_Original vs :
  go_mapM Original_ptr (Some <$> vs) = Return (Original <$> vs).
Proof.
  induction vs as [|v vs IH]; [done|].
  cbn [fmap list_fmap go_mapM Original_ptr].
  change (list_fmap _ _ ?f ?l) with (f <$> l).
  by rewrite IH.
Qed.

(** *** A nil pointer *)

Lemma all_set (l : list (option Version)) :
  Forall is_Some l -> exists vs, l = Some <$> vs.
Proof.
  induction 1 as [|o l [v ->] _ [vs ->]]; [by exists []|]. by exists (v :: vs).
Qed.

Lemma sift_keeps_safe x done d :
  sift_safe done -> sift x done = Return d -> sift_safe d.
Proof.
  intros [->|Hall].
  - by destruct x.
  - destruct x as [x|].
    + destruct (all_set done) as [vs ->]; [done|].
      rewrite sift_Some. intros [= <-]. right.
      apply Forall_fmap, Forall_forall. by eexists.
    + destruct done as [|[y|] done]; [|done..]. intros [= <-]. by left.
Qed.

Lemma insertionSort_nil_pointer rest done :
  sift_safe done -> None ∈ (rest ++ done)%list ->
  insertionSort rest done = Panic \/ insertionSort rest done = Return [None].
Proof.
  revert done. induction rest as [|x rest IH]; intros done Hsafe Hin.
  - destruct Hsafe as [->|Hall]; [by right|].
    rewrite Forall_forall in Hall. by destruct (Hall None Hin) as [? [=]].
  - simpl. destruct (sift x done) as [d|] eqn:Hd; [|by left]. simpl.
    apply IH; [by eapply sift_keeps_safe|].
    assert (None ∈ x :: done -> None ∈ d) as Hd'.
    { destruct done as [|y done]; [by intros; simplify_eq/=|].
      simpl in Hd. destruct x as [x|], y as [y|]; try done.
      intros Hx. destruct Hsafe as [[=]|Hall].
      rewrite Forall_forall in Hall.
      apply elem_of_cons in Hx as [[=]|Hx].
      by destruct (Hall None Hx) as [? [=]]. }
    rewrite elem_of_app in Hin. rewrite elem_of_cons in Hin.
    rewrite elem_of_app. destruct Hin as [[<-|?]|?]; [|by left|].
    + right. apply Hd'. by left.
    + right. apply Hd'. by right.
Qed.

End Sorting.

Section SortedKeys.

Context {L : Semver}.

Lemma parses_parsed ks : Forall parses ks -> exists vs, parsed ks vs.
Proof.
  induction 1 as [|k ks [v Hv] _ [vs Hvs]]; [exists []; constructor|].
  exists (v :: vs). by constructor.
Qed.

Lemma NewVersion_ptr_parsed ks vs :
  parsed ks vs -> NewVersion_ptr <$> ks = Some <$> vs.
Proof.
  induction 1 as [|k v ks vs Hv _ IH]; [done|].
  csimpl. rewrite IH. unfold NewVersion_ptr. by rewrite Hv.
Qed.

Lemma Original_parsed ks vs :
  keeps_original -> parsed ks vs -> Original <$> vs = ks.
Proof.
  intros Horig. induction 1 as [|k v ks vs Hv _ IH]; [done|].
  csimpl. by rewrite IH, (Horig _ _ Hv).
Qed.

Lemma SortMapKeys_parsed rho m vs decending :
  parsed (rho m) vs ->
  SortMapKeys rho m decending =
  Return (if decending then reverse (sorted_keys vs) else sorted_keys vs).
Proof.
  intros Hvs. unfold SortMapKeys, sort_Sort, sorted_keys.
  rewrite (NewVersion_ptr_parsed _ _ Hvs).
  change [] with (Some <$> @nil Version) at 1.
  rewrite insertionSort_Some. simpl.
  destruct decending; simpl.
  - by rewrite <- fmap_reverse, go_mapM_Original, fmap_reverse.
  - by rewrite go_mapM_Original.
Qed.

Lemma sorted_keys_Permutation ks vs :
  keeps_original -> parsed ks vs -> sorted_keys vs ≡ₚ ks.
Proof.
  intros Horig Hvs. unfold sorted_keys.
  rewrite insertionSort_total_Permutation, app_nil_r.
  by rewrite (Original_parsed _ _ Horig Hvs).
Qed.

Lemma precedes_Original a b :
  NewVersion (Original a) = Ok a -> NewVersion (Original b) = Ok b ->
  precedes (Original a) (Original b) <-> at_most LessThan a b.
Proof.
  intros Ha Hb. unfold precedes, at_most. split.
  - intros (v1 & v2 & H1 & H2 & Hle). congruence.
  - intros Hle. by exists a, b.
Qed.

Lemma sorted_keys_sorted ks vs :
  keeps_original -> parsed ks vs -> precedence_on ks ->
  StronglySorted precedes (sorted_keys vs).
Proof.
  intros Horig Hvs [Htotal Htrans].
  set (U := fun v => NewVersion (Original v) = Ok v /\ Original v ∈ ks).
  assert (Forall U vs) as HU.
  { clear Htotal Htrans. induction Hvs as [|k v ks vs Hv _ IH]; [done|].
    pose proof (Horig _ _ Hv) as Hk. constructor.
    - split; [congruence|]. rewrite Hk. by left.
    - eapply Forall_impl; [exact IH|]. intros w [? ?]. split; [done|by right]. }
  assert (StronglySorted (at_most LessThan)
            (insertionSort_total LessThan vs [])) as Hsorted.
  { apply (insertionSort_total_sorted LessThan U); [| |done|done|constructor].
    - intros a b [Ha Hain] [Hb Hbin].
      destruct (Htotal _ _ Hain Hbin) as [H|H];
        apply precedes_Original in H; auto.
    - intros a b c [Ha Hain] [Hb Hbin] [Hc Hcin] Hab Hbc.
      apply precedes_Original; [done..|].
      apply (Htrans _ (Original b)); [done..| |]; by apply precedes_Original. }
  assert (Forall U (insertionSort_total LessThan vs [])) as HU'.
  { by rewrite insertionSort_total_Permutation, app_nil_r. }
  unfold sorted_keys. clear HU.
  induction Hsorted as [|v l _ IH Hv]; [constructor|].
  apply Forall_cons in HU' as [[Hpv _] HU']. csimpl. constructor; [by apply IH|].
  apply Forall_fmap, Forall_forall. intros w Hw. simpl.
  rewrite Forall_forall in Hv, HU'. destruct (HU' w Hw) as [Hpw _].
  apply precedes_Original; auto.
Qed.

(** A key that does not parse stops [SortMapKeys] with a nil pointer
    dereference, in [Less] or in [Original]. *)
Lemma SortMapKeys_nil_pointer rho m k decending :
  valid_iteration rho -> k ∈ keys m -> ~ parses k ->
  SortMapKeys rho m decending = Panic.
Proof.
  intros Hrho Hk Hbad. unfold SortMapKeys, sort_Sort.
  assert (None ∈ NewVersion_ptr <$> rho m) as Hnil.
  { apply list_elem_of_fmap. exists k. rewrite (Hrho m). split; [|done].
    unfold NewVersion_ptr. destruct (NewVersion k) as [v|] eqn:Hv; [|done].
    destruct Hbad. by exists v. }
  destruct (insertionSort_nil_pointer (NewVersion_ptr <$> rho m) [])
    as [-> | ->]; [by right|by rewrite app_nil_r|done|].
  by destruct decending.
Qed.

End SortedKeys.

(** ** Checking the order laws by evaluation *)

Section Tests.

Context {L : Semver}.

Lemma parsesb_spec k : parsesb k = true <-> parses k.
Proof.
  unfold parsesb, parses. destruct (NewVersion k) as [v|e]; split; try done.
  - by exists v.
  - by intros [? ?].
Qed.

Lemma precedesb_spec k1 k2 : precedesb k1 k2 = true <-> precedes k1 k2.
Proof.
  unfold precedesb, precedes.
  destruct (NewVersion k1) as [v1|e1], (NewVersion k2) as [v2|e2].
  - rewrite negb_true_iff. split; [by exists v1, v2|].
    intros (? & ? & ? & ? & ?). congruence.
  - split; [done|]. by intros (? & ? & ? & ? & ?).
  - split; [done|]. by intros (? & ? & ? & ? & ?).
  - split; [done|]. by intros (? & ? & ? & ? & ?).
Qed.

Lemma forallb_elem_of {A : Type} (f : A -> bool) (l : list A) (x : A) :
  forallb f l = true -> x ∈ l -> f x = true.
Proof.
  induction l as [|y l IH]; simpl; [by intros _ ?%elem_of_nil|].
  intros [Hy Hl]%andb_true_iff [->|?]%elem_of_cons; auto.
Qed.

Lemma parsesb_all ks : forallb parsesb ks = true -> Forall parses ks.
Proof.
  intros Hks. apply Forall_forall. intros k Hk.
  apply parsesb_spec. by eapply forallb_elem_of.
Qed.

Lemma precedence_onb_spec ks : precedence_onb ks = true -> precedence_on ks.
Proof.
  unfold precedence_onb. intros [Htotal Htrans]%andb_true_iff. split.
  - intros k1 k2 H1 H2.
    pose proof (forallb_elem_of _ _ _ (forallb_elem_of _ _ _ Htotal H1) H2) as H.
    simpl in H. apply orb_true_iff in H as [H|H]; apply precedesb_spec in H; auto.
  - intros k1 k2 k3 H1 H2 H3 H12%precedesb_spec H23%precedesb_spec.
    pose proof (forallb_elem_of _ _ _ (forallb_elem_of _ _ _
      (forallb_elem_of _ _ _ Htrans H1) H2) H3) as H.
    simpl in H. rewrite H12, H23 in H. by apply precedesb_spec.
Qed.

Lemma no_tiesb_spec ks : no_tiesb ks = true -> no_ties ks.
Proof.
  unfold no_tiesb. intros Hties k1 k2 H1 H2 H12%precedesb_spec H21%precedesb_spec.
  pose proof (forallb_elem_of _ _ _ (forallb_elem_of _ _ _ Hties H1) H2) as H.
  simpl in H. rewrite H12, H21 in H. by apply String.eqb_eq.
Qed.

End Tests.

(** ** Resolution *)

Section Resolution.

Context {L : Semver} {W : Platform}.
Variable options : Options.

(** With a constraint that parses, a release whose tag is not a version
    makes [ListReleases] fail: the error of [InRange] is returned, whichever
    of its two causes it has. *)
Lemma ListReleases_bad_tag constraint c gr :
  constraint <> "" ->
  NewConstraint constraint = Ok c ->
  client_ListReleases (Organization options) (Repo options) = Ok gr ->
  Exists (fun g => ~ parses (TagName g)) gr ->
  exists e, ListReleases options constraint =
            Err (Errorf "Invalid sematic version constraint"
                   (Errorf "Invalid sematic version" e)).
Proof.
  intros Hne Hc Hgr Hbad. unfold ListReleases. rewrite Hgr.
  by eapply ListReleases_loop_bad_tag.
Qed.

(** C2, on the code. With a constraint that is not empty and does not
    parse, [ListInstalledVersions] does not fail, as [ListReleases] does
    and as gvm.go did: the error of [InRange] makes it skip every entry,
    and it returns the empty catalog and no error. *)
Theorem ListInstalledVersions_bad_constraint fs files constraint e :
  constraint <> "" ->
  NewConstraint constraint = Err e ->
  ioutil_ReadDir fs (ReleasesPath options) = Ok files ->
  ListInstalledVersions options fs constraint = Ok ∅.
Proof.
  intros Hne Hc Hfiles. unfold ListInstalledVersions. rewrite Hfiles.
  by rewrite (ListInstalledVersions_loop_bad_constraint _ _ e).
Qed.

(** C6. A catalog key is the tag as published, and the naming functions
    get the tag with its leading [v]s taken off: an entry of ListReleases
    sits under the tag of a release that has an asset named as
    AssetNameFunc says for the stripped tag; an entry of
    ListInstalledVersions sits under the directory name and holds the path
    made from that name and from ExeNameFunc of the stripped name;
    DownloadRelease makes and fills the directory named by the tag and
    returns the path made from it and from ExeNameFunc of the stripped
    tag.  The stripped tag is the tag without its leading [v]s. *)
Theorem tag_kept_version_stripped :
  (forall constraint m k u,
     ListReleases options constraint = Ok m -> m !! k = Some u ->
     exists gr g a,
       client_ListReleases (Organization options) (Repo options) = Ok gr /\
       g ∈ gr /\ a ∈ Assets g /\ TagName g = k /\ BrowserDownloadURL a = u /\
       ToLower (Name a) =
       ToLower (AssetNameFunc options (TrimLeft_v k) (GOOS options) (GOARCH options))) /\
  (forall fs constraint m k p,
     ListInstalledVersions options fs constraint = Ok m -> m !! k = Some p ->
     exists files,
       ioutil_ReadDir fs (ReleasesPath options) = Ok files /\ k ∈ files /\
       p = path_Join [ReleasesPath options; k;
                      ExeNameFunc options (TrimLeft_v k) (GOOS options) (GOARCH options)]) /\
  (forall tag url fs p fs',
     DownloadRelease options tag url fs = (Ok p, fs') ->
     exists fs1,
       os_MkdirAll (path_Join [ReleasesPath options; tag]) fs = (None, fs1) /\
       getter_GetAny (path_Join [ReleasesPath options; tag]) url fs1 = (None, fs') /\
       p = path_Join [path_Join [ReleasesPath options; tag];
                      ExeNameFunc options (TrimLeft_v tag) (GOOS options) (GOARCH options)]) /\
  (forall tag,
     (forall s, TrimLeft_v tag <> String "v" s) /\
     exists n, tag = (v_prefix n ++ TrimLeft_v tag)%string).
Proof.
  split_and!.
  - intros constraint m k u. unfold ListReleases.
    destruct (client_ListReleases _ _) as [gr|]; [|done].
    intros Hloop Hk.
    destruct (ListReleases_loop_lookup _ _ _ _ _ _ _ Hloop Hk)
      as [Hempty|(g & a & Hg & Ha & <- & Hu & Hm)]; [by rewrite lookup_empty in Hempty|].
    by exists gr, g, a.
  - intros fs constraint m k p. unfold ListInstalledVersions.
    destruct (ioutil_ReadDir _ _) as [files|]; [|done].
    intros [= <-] Hk.
    apply ListInstalledVersions_loop_lookup in Hk as [Hempty|[Hin ->]];
      [by rewrite lookup_empty in Hempty|].
    by exists files.
  - intros tag url fs p fs'. unfold DownloadRelease.
    destruct (os_MkdirAll _ fs) as [[e|] fs1]; [done|].
    destruct (getter_GetAny _ url fs1) as [[e|] fs2] eqn:Hget; [done|].
    intros [= <- <-]. by exists fs1.
  - intros tag. split.
    + induction tag as [|c tag IH]; [done|]. simpl.
      destruct (Ascii.eqb_spec c "v"%char) as [->|Hc]; [done|congruence].
    + induction tag as [|c tag [n IH]]; [by exists 0|]. simpl.
      destruct (Ascii.eqb_spec c "v"%char) as [->|Hc].
      * exists (S n). by rewrite IH at 1.
      * by exists 0.
Qed.

(** C10. With the empty constraint no tag is parsed: the two listings do
    not depend on the semver library, every directory entry is in the
    catalog of ListInstalledVersions, and every release with a matching
    asset is in the catalog of ListReleases, whether or not its tag is a
    version. *)
Theorem unconstrained_listing_keeps_every_tag :
  (forall L' : Semver,
     @ListReleases L' W options "" = @ListReleases L W options "" /\
     forall fs, @ListInstalledVersions L' W options fs "" =
                @ListInstalledVersions L W options fs "") /\
  (forall fs files,
     ioutil_ReadDir fs (ReleasesPath options) = Ok files ->
     exists m, ListInstalledVersions options fs "" = Ok m /\
               forall f, f ∈ files -> m !! f = Some (installed_path options f)) /\
  (forall gr,
     client_ListReleases (Organization options) (Repo options) = Ok gr ->
     exists m, ListReleases options "" = Ok m /\
               forall g a, g ∈ gr -> a ∈ Assets g -> asset_matches options g a ->
                           is_Some (m !! TagName g)).
Proof.
  split_and!.
  - intros L'. split.
    + unfold ListReleases. destruct (client_ListReleases _ _) as [gr|]; [|done].
      by rewrite !ListReleases_loop_unconstrained.
    + intros fs. unfold ListInstalledVersions.
      destruct (ioutil_ReadDir _ _) as [files|]; [|done]. f_equal.
      generalize (∅ : gmap string string).
      induction files as [|f files IH]; intros versions; [done|apply IH].
  - intros fs files Hfiles. unfold ListInstalledVersions. rewrite Hfiles.
    eexists. split; [done|]. intros f Hf.
    by apply ListInstalledVersions_loop_unconstrained.
  - intros gr Hgr. unfold ListReleases. rewrite Hgr.
    rewrite ListReleases_loop_unconstrained. eexists. split; [done|].
    intros g a Hg Ha Hm. by eapply scan_fold_match.
Qed.

End Resolution.

(** ** DownloadRelease *)

Section Download.

Context {L : Semver} {W : Platform}.
Variable options : Options.

(** C9. DownloadRelease first makes the directory of the tag under the
    releases path; when that fails it returns the wrapped error and does
    not fetch.  Otherwise it hands the directory and the URL to the fetcher
    once: a failure is returned wrapped, and a success returns the path
    made from the directory and from ExeNameFunc of the stripped tag,
    whatever the fetcher left in the file system.  That path is the join of
    releases path, tag and executable name when joining nests. *)
Theorem DownloadRelease_steps tag url fs :
  let dir := path_Join [ReleasesPath options; tag] in
  (forall err fs1,
     os_MkdirAll dir fs = (Some err, fs1) ->
     DownloadRelease options tag url fs =
     (Err (Errorf "Unable to create temporary folder" err), fs1)) /\
  (forall fs1 err fs2,
     os_MkdirAll dir fs = (None, fs1) ->
     getter_GetAny dir url fs1 = (Some err, fs2) ->
     DownloadRelease options tag url fs =
     (Err (Errorf "Unable to download file" err), fs2)) /\
  (forall fs1 fs2,
     os_MkdirAll dir fs = (None, fs1) ->
     getter_GetAny dir url fs1 = (None, fs2) ->
     DownloadRelease options tag url fs = (Ok (download_path options tag), fs2) /\
     (Join_nests ->
      download_path options tag =
      path_Join [ReleasesPath options; tag;
                 ExeNameFunc options (TrimLeft_v tag) (GOOS options) (GOARCH options)])).
Proof.
  intros dir. unfold DownloadRelease. fold dir. split_and!.
  - by intros err fs1 ->.
  - by intros fs1 err fs2 -> ->.
  - intros fs1 fs2 -> ->. split; [done|]. intros Hnest. apply Hnest.
Qed.

End Download.

(** ** Sorting and selecting *)

Section Selection.

Context {L : Semver} {W : Platform}.
Variable options : Options.

Lemma valid_iteration_empty rho : valid_iteration rho -> rho ∅ = [].
Proof.
  intros Hrho. apply Permutation_nil_r. rewrite (Hrho ∅).
  unfold keys. by rewrite map_to_list_empty.
Qed.

Lemma parsed_iteration rho m :
  valid_iteration rho -> Forall parses (keys m) -> exists vs, parsed (rho m) vs.
Proof.
  intros Hrho Hkeys. apply parses_parsed. by rewrite (Hrho m).
Qed.

(** A catalog of versions is sorted both ways from one ascending list. *)
Lemma SortMapKeys_both rho m :
  valid_iteration rho -> keeps_original -> Forall parses (keys m) ->
  exists l, SortMapKeys rho m false = Return l /\
            SortMapKeys rho m true = Return (reverse l) /\
            l ≡ₚ keys m /\
            (precedence_on (keys m) -> StronglySorted precedes l).
Proof.
  intros Hrho Horig Hkeys.
  destruct (parsed_iteration rho m Hrho Hkeys) as [vs Hvs].
  exists (sorted_keys vs). split_and!.
  - by rewrite (SortMapKeys_parsed _ _ vs).
  - by rewrite (SortMapKeys_parsed _ _ vs).
  - rewrite <- (Hrho m). by apply sorted_keys_Permutation.
  - intros Hord. apply (sorted_keys_sorted (rho m)); [done..|].
    destruct Hord as [Htotal Htrans]. split.
    + intros k1 k2 H1 H2. apply Htotal; by rewrite <- (Hrho m).
    + intros k1 k2 k3 H1 H2 H3. apply Htrans; by rewrite <- (Hrho m).
Qed.

(** C3, as the code has it. On a mapping whose keys are all versions
    SortMapKeys returns: it gives back every key once, and in the order of
    precedence, lowest first, or highest first when [decending] is set. *)
Theorem SortMapKeys_sorts_versions rho m decending :
  valid_iteration rho -> keeps_original ->
  Forall parses (keys m) -> precedence_on (keys m) ->
  exists l, SortMapKeys rho m decending = Return l /\
            l ≡ₚ keys m /\
            StronglySorted precedes (if decending then reverse l else l).
Proof.
  intros Hrho Horig Hkeys Hord.
  destruct (SortMapKeys_both rho m Hrho Horig Hkeys)
    as (l & Hasc & Hdesc & Hperm & Hsorted).
  destruct decending.
  - exists (reverse l). rewrite reverse_involutive. split_and!; auto.
    by rewrite reverse_Permutation.
  - exists l. auto.
Qed.

(** C7, as the code has it. On a mapping whose keys are all versions
    SortMapKeys(m, false) is in ascending precedence, and SortMapKeys(m,
    true) is its exact reverse when both calls range over the map in the
    same order, or in any two orders when no two keys have the same
    precedence. *)
Theorem SortMapKeys_descending_is_reverse rho rho' m :
  valid_iteration rho -> valid_iteration rho' -> keeps_original ->
  Forall parses (keys m) -> precedence_on (keys m) ->
  exists l, SortMapKeys rho m false = Return l /\
            StronglySorted precedes l /\
            SortMapKeys rho m true = Return (reverse l) /\
            (no_ties (keys m) -> SortMapKeys rho' m true = Return (reverse l)).
Proof.
  intros Hrho Hrho' Horig Hkeys Hord.
  destruct (SortMapKeys_both rho m Hrho Horig Hkeys)
    as (l & Hasc & Hdesc & Hperm & Hsorted).
  destruct (SortMapKeys_both rho' m Hrho' Horig Hkeys)
    as (l' & _ & Hdesc' & Hperm' & Hsorted').
  exists l. split_and!; auto. intros Hties.
  rewrite Hdesc'. do 2 f_equal.
  apply (StronglySorted_unique_strong precedes); auto.
  - intros k1 k2 Hk1 Hk2. apply Hties; [by rewrite <- Hperm'|by rewrite <- Hperm].
  - by rewrite Hperm, Hperm'.
Qed.

Lemma latest_picks rho assets :
  valid_iteration rho -> keeps_original ->
  Forall parses (keys assets) -> assets <> ∅ ->
  picks assets (latest rho assets).
Proof.
  intros Hrho Horig Hkeys Hne.
  destruct (SortMapKeys_both rho assets Hrho Horig Hkeys)
    as (l & Hasc & _ & Hperm & _).
  unfold latest. rewrite Hasc. simpl.
  destruct (last l) as [tag|] eqn:Hlast.
  - assert (tag ∈ keys assets) as Htag.
    { rewrite <- Hperm. by apply last_Some_elem_of. }
    apply list_elem_of_fmap in Htag as ([k url] & -> & Hin).
    apply elem_of_map_to_list in Hin. exists k, url. simpl. by rewrite Hin.
  - apply last_None in Hlast. subst l. symmetry in Hperm.
    apply Permutation_nil_r in Hperm.
    destruct Hne. apply map_to_list_empty_iff.
    unfold keys in Hperm. by apply fmap_nil_inv in Hperm.
Qed.

(** C4. From a catalog that is not empty and whose keys are all versions,
    GetLatestReleaseURL and GetInstalledVersion return, with no error, a
    tag that is a key of the catalog as it is written there, and the
    location that the catalog holds under that key. *)
Theorem latest_returns_catalog_entry rho fs constraint assets :
  valid_iteration rho -> keeps_original ->
  Forall parses (keys assets) -> assets <> ∅ ->
  (ListReleases options constraint = Ok assets ->
   picks assets (GetLatestReleaseURL options rho constraint)) /\
  (ListInstalledVersions options fs constraint = Ok assets ->
   picks assets (GetInstalledVersion options rho fs constraint)).
Proof.
  intros Hrho Horig Hkeys Hne.
  unfold GetLatestReleaseURL, GetInstalledVersion.
  split; intros ->; by apply latest_picks.
Qed.

(** C8. On an empty catalog the selectors return the empty tag, the empty
    location and no error. *)
Theorem latest_of_empty_catalog rho fs constraint :
  valid_iteration rho ->
  (ListReleases options constraint = Ok ∅ ->
   GetLatestReleaseURL options rho constraint = Return ("", "", None)) /\
  (ListInstalledVersions options fs constraint = Ok ∅ ->
   GetInstalledVersion options rho fs constraint = Return ("", "", None)).
Proof.
  intros Hrho. unfold GetLatestReleaseURL, GetInstalledVersion.
  split; intros ->; unfold latest, SortMapKeys;
    by rewrite (valid_iteration_empty rho Hrho).
Qed.

End Selection.

(** * Further properties of the resolver *)

(** ** When ListReleases fails, and what its catalog holds *)

Section ListingFacts.

Context {L : Semver} {W : Platform}.
Variable options : Options.

Lemma passes_dec constraint g : passes constraint g \/ ~ passes constraint g.
Proof.
  unfold passes. destruct (String.eqb_spec constraint "") as [->|Hne]; [by left; left|].
  destruct (InRange (TagName g) constraint) as [[|] [e|]];
    [right|left; by right|right|right]; by intros [?|[=]].
Qed.

Lemma contributes_dec constraint g :
  contributes options constraint g \/ ~ contributes options constraint g.
Proof.
  unfold contributes. destruct (passes_dec constraint g) as [Hp|Hp]; [|right; tauto].
  destruct (first_match options g (Assets g))
    as [Hnone|(before & a & after & Heq & _ & Ha)].
  - right. intros [_ Hex]. apply Exists_exists in Hex as (a & Hin & Ha).
    rewrite Forall_forall in Hnone. by apply (Hnone a).
  - left. split; [done|]. apply Exists_exists. exists a. split; [|done].
    rewrite Heq. apply elem_of_app. right. by left.
Qed.

(** One round of the loop of [ListReleases] that does not end the call. *)
Lemma ListReleases_loop_round constraint g gr tags m :
  ListReleases_loop options constraint (g :: gr) tags = Ok m ->
  (passes constraint g /\
   forall gr' tags',
     ListReleases_loop options constraint (g :: gr') tags' =
     ListReleases_loop options constraint gr'
       (scan_assets options g (Assets g) tags')) \/
  (~ passes constraint g /\
   forall gr' tags',
     ListReleases_loop options constraint (g :: gr') tags' =
     ListReleases_loop options constraint gr' tags').
Proof.
  unfold passes. simpl.
  destruct (String.eqb_spec constraint "") as [->|Hne]; simpl.
  { intros _. left. split; [by left|done]. }
  destruct (InRange (TagName g) constraint) as [valid [e|]]; [done|].
  destruct valid; simpl; intros _.
  - left. split; [by right|done].
  - right. split; [|done]. by intros [?|[=]].
Qed.

Lemma ListReleases_loop_step constraint g gr tags m :
  ListReleases_loop options constraint (g :: gr) tags = Ok m ->
  (passes constraint g /\
   ListReleases_loop options constraint gr
     (scan_assets options g (Assets g) tags) = Ok m) \/
  (~ passes constraint g /\ ListReleases_loop options constraint gr tags = Ok m).
Proof.
  intros Hloop.
  destruct (ListReleases_loop_round _ _ _ _ _ Hloop) as [[Hp Heq]|[Hp Heq]];
    rewrite Heq in Hloop; [by left|by right].
Qed.

Lemma scan_assets_contributes constraint g tags :
  passes constraint g ->
  (contributes options constraint g /\
   exists a, first_asset options g a /\
             scan_assets options g (Assets g) tags =
             <[TagName g := BrowserDownloadURL a]> tags) \/
  (~ contributes options constraint g /\
   scan_assets options g (Assets g) tags = tags).
Proof.
  intros Hp.
  destruct (first_match options g (Assets g))
    as [Hnone|(before & a & after & Heq & Hbefore & Ha)].
  - right. split; [|by apply scan_assets_none].
    intros [_ Hex]. apply Exists_exists in Hex as (a & Hin & Ha).
    rewrite Forall_forall in Hnone. by apply (Hnone a).
  - left. split.
    + split; [done|]. apply Exists_exists. exists a. split; [|done].
      rewrite Heq. apply elem_of_app. right. by left.
    + exists a. split; [by exists before, after|].
      rewrite Heq. by apply scan_assets_first.
Qed.

Lemma ListReleases_loop_succeeds constraint gr tags :
  (exists m, ListReleases_loop options constraint gr tags = Ok m) <->
  constraint = "" \/ gr = [] \/
  ((exists c, NewConstraint constraint = Ok c) /\
   Forall (fun g => parses (TagName g)) gr).
Proof.
  destruct (String.eqb_spec constraint "") as [->|Hne].
  { split; [by left|]. intros _. rewrite ListReleases_loop_unconstrained. by eexists. }
  revert tags. induction gr as [|g gr IH]; intros tags.
  { split; [by right; left|]. intros _. by eexists. }
  simpl. rewrite (proj2 (String.eqb_neq constraint "") Hne). simpl.
  unfold InRange.
  destruct (NewConstraint constraint) as [c|e] eqn:Hc.
  - destruct (NewVersion (TagName g)) as [v|e] eqn:Hv.
    + assert (forall tags',
        (exists m, ListReleases_loop options constraint gr tags' = Ok m) <->
        constraint = "" \/ g :: gr = [] \/
        ((exists c0, Ok c = Ok c0) /\ Forall (fun g => parses (TagName g)) (g :: gr)))
        as Hstep.
      { intros tags'. rewrite IH. split.
        - intros [?|[->|[_ Hall]]]; [done|..]; right; right; (split; [by eexists|]).
          + repeat constructor. by exists v.
          + constructor; [by exists v|done].
        - intros [?|[[=]|[_ Hall]]]; [done|]. right. right.
          split; [by eexists|]. by apply Forall_cons in Hall as [_ ?]. }
      destruct (Check c v); simpl; apply Hstep.
    + split; [by intros [? [=]]|].
      intros [?|[[=]|[_ Hall]]]; [done|].
      apply Forall_cons in Hall as [[v Hv'] _]. congruence.
  - split; [by intros [? [=]]|].
    by intros [?|[[=]|[[? [=]] _]]].
Qed.

(** X1. Once GitHub has answered, ListReleases returns a catalog exactly
    when the constraint is empty, or there is no release at all, or the
    constraint parses and so does the tag of every release; in every other
    case it returns an error. *)
Theorem ListReleases_succeeds_iff constraint gr :
  client_ListReleases (Organization options) (Repo options) = Ok gr ->
  (exists m, ListReleases options constraint = Ok m) <->
  constraint = "" \/ gr = [] \/
  ((exists c, NewConstraint constraint = Ok c) /\
   Forall (fun g => parses (TagName g)) gr).
Proof.
  intros Hgr. unfold ListReleases. rewrite Hgr. apply ListReleases_loop_succeeds.
Qed.

(** X2. A constraint that is not empty and does not parse is reported by
    ListReleases only when there is a release to check: with no release the
    call returns the empty catalog, and otherwise the library's error wrapped
    twice under the message for a bad constraint. *)
Theorem ListReleases_bad_constraint constraint e gr :
  constraint <> "" ->
  NewConstraint constraint = Err e ->
  client_ListReleases (Organization options) (Repo options) = Ok gr ->
  ListReleases options constraint =
  match gr with
  | [] => Ok ∅
  | _ :: _ =>
    Err (Errorf "Invalid sematic version constraint"
           (Errorf "Invalid sematic version constraint" e))
  end.
Proof.
  intros Hne Hc Hgr. unfold ListReleases. rewrite Hgr.
  destruct gr as [|g gr]; [done|]. simpl.
  rewrite (proj2 (String.eqb_neq constraint "") Hne). simpl.
  by rewrite (InRange_bad_constraint _ _ _ Hc).
Qed.

Lemma ListReleases_loop_keeps constraint gr tags m k :
  ListReleases_loop options constraint gr tags = Ok m ->
  is_Some (tags !! k) -> is_Some (m !! k).
Proof.
  revert tags. induction gr as [|g gr IH]; intros tags; [by intros [= <-]|].
  intros [[_ Hloop]|[_ Hloop]]%ListReleases_loop_step Hk.
  - eapply IH; [done|]. by apply scan_assets_keeps.
  - by eapply IH.
Qed.

Lemma ListReleases_loop_dom constraint gr tags m k :
  ListReleases_loop options constraint gr tags = Ok m ->
  is_Some (m !! k) <->
  is_Some (tags !! k) \/
  exists g, g ∈ gr /\ TagName g = k /\ contributes options constraint g.
Proof.
  revert tags. induction gr as [|g gr IH]; intros tags.
  { intros [= <-]. split; [by left|]. intros [?|(g & []%elem_of_nil & _)]; done. }
  intros [[Hp Hloop]|[Hp Hloop]]%ListReleases_loop_step.
  - rewrite (IH _ Hloop).
    destruct (scan_assets_contributes constraint g tags Hp)
      as [[Hc (a & _ & ->)]|[Hc ->]].
    + split.
      * intros [Hk|(g' & Hg' & Hk & Hc')].
        -- destruct (decide (TagName g = k)) as [<-|Hne].
           ++ right. exists g. split; [by left|done].
           ++ left. by rewrite lookup_insert_ne in Hk.
        -- right. exists g'. split; [by right|done].
      * intros [Hk|(g' & Hg' & Hk & Hc')].
        -- left. destruct (decide (TagName g = k)) as [<-|Hne].
           ++ rewrite lookup_insert_eq. by eexists.
           ++ by rewrite lookup_insert_ne.
        -- apply elem_of_cons in Hg' as [->|Hg'].
           ++ left. rewrite <- Hk, lookup_insert_eq. by eexists.
           ++ right. by exists g'.
    + split.
      * intros [Hk|(g' & Hg' & Hk & Hc')]; [by left|].
        right. exists g'. split; [by right|done].
      * intros [Hk|(g' & Hg' & Hk & Hc')]; [by left|].
        apply elem_of_cons in Hg' as [->|Hg']; [done|]. right. by exists g'.
  - rewrite (IH _ Hloop). split.
    + intros [Hk|(g' & Hg' & Hk & Hc')]; [by left|].
      right. exists g'. split; [by right|done].
    + intros [Hk|(g' & Hg' & Hk & Hc')]; [by left|].
      apply elem_of_cons in Hg' as [->|Hg']; [by destruct Hc' as [? _]|].
      right. by exists g'.
Qed.

(** X3. The keys of the catalog of ListReleases are exactly the tags of the
    releases that get through the constraint check and have an asset with
    the name asked for. *)
Theorem ListReleases_keys constraint gr m k :
  client_ListReleases (Organization options) (Repo options) = Ok gr ->
  ListReleases options constraint = Ok m ->
  is_Some (m !! k) <->
  exists g, g ∈ gr /\ TagName g = k /\ contributes options constraint g.
Proof.
  intros Hgr. unfold ListReleases. rewrite Hgr. intros Hloop.
  rewrite (ListReleases_loop_dom _ _ _ _ _ Hloop), lookup_empty.
  split; [|by right]. by intros [[? [=]]|?].
Qed.

Lemma ListReleases_loop_app constraint before after tags m :
  ListReleases_loop options constraint (before ++ after) tags = Ok m ->
  exists tags1, ListReleases_loop options constraint before tags = Ok tags1 /\
                ListReleases_loop options constraint after tags1 = Ok m.
Proof.
  revert tags. induction before as [|g before IH]; intros tags Hloop.
  { by exists tags. }
  change ((g :: before) ++ after)%list with (g :: (before ++ after))%list in Hloop.
  destruct (ListReleases_loop_round _ _ _ _ _ Hloop) as [[_ Heq]|[_ Heq]];
    rewrite Heq in Hloop; destruct (IH _ Hloop) as (tags1 & Hbefore & Hafter);
    exists tags1; by rewrite Heq.
Qed.

Lemma ListReleases_loop_frame constraint gr tags m k :
  ListReleases_loop options constraint gr tags = Ok m ->
  Forall (fun g => TagName g = k -> ~ contributes options constraint g) gr ->
  m !! k = tags !! k.
Proof.
  revert tags. induction gr as [|g gr IH]; intros tags; [by intros [= <-]|].
  intros [[Hp Hloop]|[Hp Hloop]]%ListReleases_loop_step [Hg Hrest]%Forall_cons.
  - rewrite (IH _ Hloop Hrest).
    destruct (scan_assets_contributes constraint g tags Hp)
      as [[Hc (a & _ & ->)]|[Hc ->]]; [|done].
    destruct (decide (TagName g = k)) as [Hk|Hne]; [by destruct (Hg Hk)|].
    by rewrite lookup_insert_ne.
  - by apply IH.
Qed.

(** X4. When several releases carry one tag, the last of them that gets
    through the check and has a matching asset decides the entry: its first
    matching asset gives the URL under the tag. *)
Theorem ListReleases_last_release_wins constraint before g after a m :
  client_ListReleases (Organization options) (Repo options) =
    Ok (before ++ g :: after)%list ->
  ListReleases options constraint = Ok m ->
  passes constraint g -> first_asset options g a ->
  Forall (fun g' => TagName g' = TagName g -> ~ contributes options constraint g')
    after ->
  m !! TagName g = Some (BrowserDownloadURL a).
Proof.
  intros Hgr. unfold ListReleases. rewrite Hgr.
  intros (tags1 & _ & Hloop)%ListReleases_loop_app Hp (pre & post & Heq & Hpre & Ha) Hafter.
  apply ListReleases_loop_step in Hloop as [[_ Hloop]|[Hnp _]]; [|done].
  rewrite (ListReleases_loop_frame _ _ _ _ _ Hloop Hafter).
  rewrite Heq, scan_assets_first by done. apply lookup_insert_eq.
Qed.

Lemma admitted_dec constraint k : admitted constraint k \/ ~ admitted constraint k.
Proof.
  unfold admitted. destruct (String.eqb_spec constraint "") as [->|Hne]; [by left; left|].
  destruct (InRange k constraint) as [[|] [e|]];
    [right|left; by right|right|right]; by intros [?|[=]].
Qed.

Lemma ListInstalledVersions_loop_step constraint f files versions :
  ListInstalledVersions_loop options constraint (f :: files) versions =
  ListInstalledVersions_loop options constraint files
    (<[f := installed_path options f]> versions) /\ admitted constraint f
  \/
  ListInstalledVersions_loop options constraint (f :: files) versions =
  ListInstalledVersions_loop options constraint files versions /\
  ~ admitted constraint f.
Proof.
  unfold admitted, installed_path. simpl.
  destruct (String.eqb_spec constraint "") as [->|Hne]; simpl; [left; by split; [|left]|].
  destruct (InRange f constraint) as [[|] [e|]]; simpl.
  - right. split; [done|]. by intros [?|[=]].
  - left. split; [done|]. by right.
  - right. split; [done|]. by intros [?|[=]].
  - right. split; [done|]. by intros [?|[=]].
Qed.

Lemma ListInstalledVersions_loop_spec constraint files versions k p :
  ListInstalledVersions_loop options constraint files versions !! k = Some p <->
  (k ∈ files /\ admitted constraint k /\ p = installed_path options k) \/
  (~ (k ∈ files /\ admitted constraint k) /\ versions !! k = Some p).
Proof.
  revert versions. induction files as [|f files IH]; intros versions.
  { simpl. split; [intros Hk; right; split; [|done]; by intros [[]%elem_of_nil _]|].
    by intros [[[]%elem_of_nil _]|[_ ?]]. }
  destruct (ListInstalledVersions_loop_step constraint f files versions)
    as [[-> Hf]|[-> Hf]]; rewrite IH; clear IH.
  - split.
    + intros [(Hin & Hk & ->)|[Hnot Hk]].
      * left. split; [by right|done].
      * destruct (decide (f = k)) as [<-|Hne].
        -- rewrite lookup_insert_eq in Hk. injection Hk as <-.
           left. split; [by left|done].
        -- rewrite lookup_insert_ne in Hk by done. right. split; [|done].
           intros [[->|Hin]%elem_of_cons Hk']; [done|]. by apply Hnot.
    + intros [(Hin & Hk & ->)|[Hnot Hk]].
      * destruct (decide (k ∈ files)) as [Hin'|Hin']; [by left|].
        right. split; [by intros [? _]|].
        apply elem_of_cons in Hin as [->|?]; [|done]. apply lookup_insert_eq.
      * right. split; [by intros [? ?]; apply Hnot; split; [right|]|].
        destruct (decide (f = k)) as [<-|Hne].
        -- destruct Hnot. split; [by left|done].
        -- by rewrite lookup_insert_ne.
  - split.
    + intros [(Hin & Hk & ->)|[Hnot Hk]].
      * left. split; [by right|done].
      * right. split; [|done].
        intros [[->|Hin]%elem_of_cons Hk']; [done|]. by apply Hnot.
    + intros [(Hin & Hk & ->)|[Hnot Hk]].
      * left. apply elem_of_cons in Hin as [->|?]; done.
      * right. split; [|done]. intros [? ?]. apply Hnot. split; [by right|done].
Qed.

(** X5. The catalog of ListInstalledVersions holds exactly the directory
    entries that get through the constraint check, each under its own name
    and with the path made from the releases path, the name and ExeNameFunc
    of the stripped name. *)
Theorem ListInstalledVersions_catalog fs files constraint m k p :
  ioutil_ReadDir fs (ReleasesPath options) = Ok files ->
  ListInstalledVersions options fs constraint = Ok m ->
  m !! k = Some p <->
  k ∈ files /\ admitted constraint k /\ p = installed_path options k.
Proof.
  intros Hfiles. unfold ListInstalledVersions. rewrite Hfiles. intros [= <-].
  rewrite ListInstalledVersions_loop_spec, lookup_empty.
  split; [|by left]. by intros [?|[_ [=]]].
Qed.

End ListingFacts.

(** ** The asset scan and the catalog *)

Section RecordedAssets.

Context {L : Semver} {W : Platform}.
Variable options : Options.

Lemma passesb_spec constraint g : passesb constraint g = true <-> passes constraint g.
Proof.
  unfold passesb, passes.
  destruct (String.eqb_spec constraint "") as [->|Hne]; simpl; [by split; [left|]|].
  destruct (InRange (TagName g) constraint) as [[|] [e|]]; split; try done;
    try (by right); by intros [?|[=]].
Qed.

Lemma scan_assets_find g assets tags :
  scan_assets options g assets tags =
  match List.find
          (fun a => String.eqb (ToLower (Name a))
                      (ToLower (AssetNameFunc options (TrimLeft_v (TagName g))
                                  (GOOS options) (GOARCH options))))
          assets with
  | Some a => <[TagName g := BrowserDownloadURL a]> tags
  | None => tags
  end.
Proof.
  induction assets as [|b rest IH]; simpl; [done|].
  by destruct (String.eqb _ _).
Qed.

Lemma scan_assets_record g tags :
  scan_assets options g (Assets g) tags = record_release options tags g.
Proof. apply scan_assets_find. Qed.

Lemma ListReleases_loop_fold constraint gr tags m :
  ListReleases_loop options constraint gr tags = Ok m ->
  m = foldl (record_release options) tags (List.filter (passesb constraint) gr).
Proof.
  revert tags. induction gr as [|g gr IH]; intros tags; [by intros [= <-]|].
  intros [[Hp Hloop]|[Hp Hloop]]%ListReleases_loop_step; simpl.
  - rewrite (proj2 (passesb_spec constraint g) Hp). simpl.
    rewrite <- scan_assets_record. by apply IH.
  - destruct (passesb constraint g) eqn:Hb; [by apply passesb_spec in Hb|].
    by apply IH.
Qed.

(** C5. The catalog that ListReleases returns is made from the releases
    that pass the constraint check, taken in the order GitHub lists them,
    each adding what its asset scan records.  The scan goes through the
    assets in the order given and compares the lower-cased names: when no
    asset has the name asked for by AssetNameFunc the release adds nothing,
    and otherwise it puts the download URL of the first such asset under the
    release's tag, whatever assets come after it. *)
Theorem ListReleases_first_matching_asset constraint gr m :
  client_ListReleases (Organization options) (Repo options) = Ok gr ->
  ListReleases options constraint = Ok m ->
  m = foldl (record_release options) ∅ (List.filter (passesb constraint) gr) /\
  (forall g, passesb constraint g = true <-> passes constraint g) /\
  (forall g tags,
     (Forall (fun b => ~ asset_matches options g b) (Assets g) /\
      record_release options tags g = tags) \/
     (exists before a after,
        Assets g = (before ++ a :: after)%list /\
        Forall (fun b => ~ asset_matches options g b) before /\
        asset_matches options g a /\
        record_release options tags g =
        <[TagName g := BrowserDownloadURL a]> tags)).
Proof.
  intros Hgr. unfold ListReleases. rewrite Hgr. intros Hloop. split_and!.
  - by apply ListReleases_loop_fold.
  - intros g. apply passesb_spec.
  - intros g tags. rewrite <- scan_assets_record.
    destruct (first_match options g (Assets g))
      as [Hnone|(before & a & after & Heq & Hbefore & Ha)].
    + left. split; [done|]. by apply scan_assets_none.
    + right. exists before, a, after. split_and!; [done..|].
      rewrite Heq. by apply scan_assets_first.
Qed.

End RecordedAssets.

(** ** What the selectors return *)

Section SelectorFacts.

Context {L : Semver} {W : Platform}.
Variable options : Options.

Lemma elem_of_keys (m : gmap string string) k : k ∈ keys m <-> is_Some (m !! k).
Proof.
  unfold keys. rewrite list_elem_of_fmap. split.
  - intros ([k' v] & -> & Hin%elem_of_map_to_list). by exists v.
  - intros [v Hv]. exists (k, v). split; [done|]. by apply elem_of_map_to_list.
Qed.

Lemma latest_picks_highest rho assets :
  valid_iteration rho -> keeps_original ->
  Forall parses (keys assets) -> precedence_on (keys assets) -> assets <> ∅ ->
  picks_highest assets (latest rho assets).
Proof.
  intros Hrho Horig Hkeys Hord Hne.
  destruct (SortMapKeys_both rho assets Hrho Horig Hkeys)
    as (l & Hasc & _ & Hperm & Hsorted).
  specialize (Hsorted Hord).
  destruct (latest_picks rho assets Hrho Horig Hkeys Hne)
    as (tag & url & Hlatest & Hurl).
  exists tag, url. split_and!; [done..|].
  unfold latest in Hlatest. rewrite Hasc in Hlatest. simpl in Hlatest.
  intros k Hk%elem_of_keys. rewrite <- Hperm in Hk.
  destruct (last l) as [tag'|] eqn:Hlast.
  2: { apply last_None in Hlast. subst l. by apply elem_of_nil in Hk. }
  injection Hlatest as -> _.
  apply last_Some in Hlast as [l' ->].
  apply elem_of_app in Hk as [Hk|Hk].
  - apply (StronglySorted_app_1_elem_of _ _ _ _ _ Hsorted Hk). by left.
  - apply list_elem_of_singleton in Hk as ->. destruct Hord as [Htotal _].
    assert (tag ∈ keys assets) as Htag.
    { rewrite <- Hperm. apply elem_of_app. right. by left. }
    by destruct (Htotal tag tag Htag Htag).
Qed.

(** X6. From a catalog that is not empty and whose keys are all versions,
    GetLatestReleaseURL and GetInstalledVersion return an entry of highest
    precedence: no key of the catalog is above the tag they return. *)
Theorem latest_is_highest rho fs constraint assets :
  valid_iteration rho -> keeps_original ->
  Forall parses (keys assets) -> precedence_on (keys assets) -> assets <> ∅ ->
  (ListReleases options constraint = Ok assets ->
   picks_highest assets (GetLatestReleaseURL options rho constraint)) /\
  (ListInstalledVersions options fs constraint = Ok assets ->
   picks_highest assets (GetInstalledVersion options rho fs constraint)).
Proof.
  intros Hrho Horig Hkeys Hord Hne.
  unfold GetLatestReleaseURL, GetInstalledVersion.
  split; intros ->; by apply latest_picks_highest.
Qed.

Lemma latest_returns rho assets :
  valid_iteration rho -> Forall parses (keys assets) ->
  latest rho assets <> Panic.
Proof.
  intros Hrho Hkeys.
  destruct (parsed_iteration rho assets Hrho Hkeys) as [vs Hvs].
  unfold latest. rewrite (SortMapKeys_parsed _ _ vs) by done. simpl.
  by destruct (last _).
Qed.

Lemma admitted_parses constraint k :
  constraint <> "" -> admitted constraint k -> parses k.
Proof.
  intros Hne [?|Hin]; [done|]. unfold InRange in Hin.
  destruct (NewConstraint constraint); [|done].
  destruct (NewVersion k) as [v|] eqn:Hv; [|done]. by exists v.
Qed.

Lemma admitted_InRange constraint k :
  constraint <> "" -> admitted constraint k -> InRange k constraint = (true, None).
Proof. by intros Hne [?|?]. Qed.

Lemma SortMapKeys_returns rho m decending :
  valid_iteration rho -> Forall parses (keys m) ->
  exists l, SortMapKeys rho m decending = Return l.
Proof.
  intros Hrho Hkeys.
  destruct (parsed_iteration rho m Hrho Hkeys) as [vs Hvs].
  rewrite (SortMapKeys_parsed _ _ vs) by done. by eexists.
Qed.

(** X7. With a constraint that is not empty, every key of a catalog that
    ListReleases or ListInstalledVersions returns got through [InRange]: it
    is a version that the constraint accepts, so SortMapKeys returns on that
    catalog, in either direction. *)
Theorem constrained_catalog_keys_are_versions rho fs constraint m :
  valid_iteration rho -> constraint <> "" ->
  ListReleases options constraint = Ok m \/
  ListInstalledVersions options fs constraint = Ok m ->
  (forall k, is_Some (m !! k) ->
             InRange k constraint = (true, None) /\ parses k) /\
  (forall decending, exists l, SortMapKeys rho m decending = Return l).
Proof.
  intros Hrho Hne Hlist.
  assert (forall k, is_Some (m !! k) -> admitted constraint k) as Hadm.
  { intros k Hk. destruct Hlist as [Hlist|Hlist].
    - unfold ListReleases in Hlist.
      destruct (client_ListReleases _ _) as [gr|] eqn:Hgr; [|done].
      apply (ListReleases_loop_dom _ _ _ _ _ k) in Hlist.
      apply Hlist in Hk as [Hk|(g & _ & <- & Hp & _)]; [|done].
      rewrite lookup_empty in Hk. by destruct Hk.
    - unfold ListInstalledVersions in Hlist.
      destruct (ioutil_ReadDir _ _) as [files|] eqn:Hfiles; [|done].
      injection Hlist as <-. destruct Hk as [p Hk].
      apply ListInstalledVersions_loop_spec in Hk as [(_ & Hk & _)|[_ Hk]]; [done|].
      by rewrite lookup_empty in Hk. }
  split.
  - intros k Hk. split.
    + by apply admitted_InRange, Hadm.
    + by apply (admitted_parses constraint), Hadm.
  - intros decending. apply SortMapKeys_returns; [done|].
    apply Forall_forall. intros k Hk%elem_of_keys.
    by apply (admitted_parses constraint), Hadm.
Qed.

Lemma latest_nil_pointer rho assets k :
  valid_iteration rho -> is_Some (assets !! k) -> ~ parses k ->
  latest rho assets = Panic.
Proof.
  intros Hrho Hk%elem_of_keys Hbad. unfold latest.
  by rewrite (SortMapKeys_nil_pointer rho assets k false Hrho Hk Hbad).
Qed.

(** X8. Without a constraint, one directory entry whose name is not a
    version makes GetInstalledVersion panic with a nil pointer dereference,
    whatever else the releases directory holds. *)
Theorem GetInstalledVersion_unconstrained_panics rho fs files f :
  valid_iteration rho ->
  ioutil_ReadDir fs (ReleasesPath options) = Ok files ->
  f ∈ files -> ~ parses f ->
  GetInstalledVersion options rho fs "" = Panic.
Proof.
  intros Hrho Hfiles Hf Hbad. unfold GetInstalledVersion, ListInstalledVersions.
  rewrite Hfiles. apply (latest_nil_pointer _ _ f); [done| |done].
  rewrite ListInstalledVersions_loop_unconstrained by done. by eexists.
Qed.

(** X9. Without a constraint, one release whose tag is not a version and
    which has an asset with the name asked for makes GetLatestReleaseURL
    panic with a nil pointer dereference. *)
Theorem GetLatestReleaseURL_unconstrained_panics rho gr g a :
  valid_iteration rho ->
  client_ListReleases (Organization options) (Repo options) = Ok gr ->
  g ∈ gr -> a ∈ Assets g -> asset_matches options g a ->
  ~ parses (TagName g) ->
  GetLatestReleaseURL options rho "" = Panic.
Proof.
  intros Hrho Hgr Hg Ha Hm Hbad. unfold GetLatestReleaseURL, ListReleases.
  rewrite Hgr, ListReleases_loop_unconstrained.
  apply (latest_nil_pointer _ _ (TagName g)); [done| |done].
  by eapply scan_fold_match.
Qed.

Lemma parses_dec k : parses k \/ ~ parses k.
Proof.
  destruct (parsesb k) eqn:Hk; [left; by apply parsesb_spec|].
  right. intros Hp%parsesb_spec. congruence.
Qed.

Lemma parses_all_or_not (ks : list string) :
  Forall parses ks \/ exists k, k ∈ ks /\ ~ parses k.
Proof.
  induction ks as [|k ks [IH|(k' & Hin & Hbad)]].
  - by left.
  - destruct (parses_dec k) as [Hk|Hk].
    + left. by constructor.
    + right. exists k. split; [by left|done].
  - right. exists k'. split; [by right|done].
Qed.

(** X17. SortMapKeys panics exactly on the mappings that have a key which
    is not a version; on every other mapping it returns. *)
Theorem SortMapKeys_panics_iff rho m decending :
  valid_iteration rho ->
  SortMapKeys rho m decending = Panic <->
  exists k, is_Some (m !! k) /\ ~ parses k.
Proof.
  intros Hrho. split.
  - intros Hpanic.
    destruct (parses_all_or_not (keys m)) as [Hall|(k & Hk%elem_of_keys & Hbad)];
      [|by exists k].
    destruct (parsed_iteration rho m Hrho Hall) as [vs Hvs].
    by rewrite (SortMapKeys_parsed _ _ vs) in Hpanic.
  - intros (k & Hk%elem_of_keys & Hbad). by apply (SortMapKeys_nil_pointer _ _ k).
Qed.

Lemma latest_no_error rho assets tag location e :
  latest rho assets <> Return (tag, location, Some e).
Proof.
  unfold latest. destruct (SortMapKeys rho assets false) as [l|]; [|done].
  simpl. by destruct (last l).
Qed.

(** X10. A selector returns an error exactly when its listing failed: the
    error is the one of the listing, and the tag and the location are
    empty. *)
Theorem selector_error_iff rho fs constraint tag location e :
  (GetLatestReleaseURL options rho constraint = Return (tag, location, Some e) <->
   ListReleases options constraint = Err e /\ tag = "" /\ location = "") /\
  (GetInstalledVersion options rho fs constraint = Return (tag, location, Some e) <->
   ListInstalledVersions options fs constraint = Err e /\ tag = "" /\ location = "").
Proof.
  unfold GetLatestReleaseURL, GetInstalledVersion. split.
  - destruct (ListReleases options constraint) as [m|e'].
    + split; [by intros ?%latest_no_error|by intros [[=] _]].
    + split; [by intros [= <- <- <-]|by intros ([= ->] & -> & ->)].
  - destruct (ListInstalledVersions options fs constraint) as [m|e'].
    + split; [by intros ?%latest_no_error|by intros [[=] _]].
    + split; [by intros [= <- <- <-]|by intros ([= ->] & -> & ->)].
Qed.

(** X12. What DownloadRelease returns is what ListInstalledVersions lists:
    when joining nests, the path returned for a tag is the one the catalog
    holds under that tag, once the directory of the tag is among the entries
    of the releases path and the tag gets through the constraint check. *)
Theorem downloaded_release_is_listed tag url fs p fs1 fs' files constraint :
  Join_nests ->
  DownloadRelease options tag url fs = (Ok p, fs1) ->
  ioutil_ReadDir fs' (ReleasesPath options) = Ok files ->
  tag ∈ files -> admitted constraint tag ->
  exists m, ListInstalledVersions options fs' constraint = Ok m /\
            m !! tag = Some p.
Proof.
  intros Hnest Hdl Hfiles Htag Hadm.
  unfold ListInstalledVersions. rewrite Hfiles. eexists. split; [done|].
  apply ListInstalledVersions_loop_spec. left. split_and!; [done..|].
  unfold DownloadRelease in Hdl.
  destruct (os_MkdirAll _ fs) as [[err|] fs2]; [done|].
  destruct (getter_GetAny _ url fs2) as [[err|] fs3]; [done|].
  injection Hdl as <- _. apply Hnest.
Qed.

End SelectorFacts.

(** ** The constructor *)

Section ConstructorFacts.

Variables runtime_GOOS runtime_GOARCH : string.

(** X11. New fills a blank GOOS or GOARCH from the running platform and
    keeps every value that was given; so, when the platform's values are not
    blank, neither are those of the new options; and options that went
    through New come out of it unchanged. *)
Theorem New_fills_blanks o :
  let o' := New runtime_GOOS runtime_GOARCH o in
  (GOOS o <> "" -> GOOS o' = GOOS o) /\
  (GOARCH o <> "" -> GOARCH o' = GOARCH o) /\
  (GOOS o = "" -> GOOS o' = runtime_GOOS) /\
  (GOARCH o = "" -> GOARCH o' = runtime_GOARCH) /\
  (runtime_GOOS <> "" -> GOOS o' <> "") /\
  (runtime_GOARCH <> "" -> GOARCH o' <> "") /\
  (Organization o', Repo o', ReleasesPath o') =
    (Organization o, Repo o, ReleasesPath o) /\
  AssetNameFunc o' = AssetNameFunc o /\ ExeNameFunc o' = ExeNameFunc o /\
  New runtime_GOOS runtime_GOARCH o' = o'.
Proof.
  unfold New. destruct o as [org repo goos goarch anf enf rp]. simpl.
  destruct (String.eqb_spec goarch "") as [->|Harch],
           (String.eqb_spec goos "") as [->|Hos]; simpl;
    split_and!; try done;
    repeat (match goal with
            | |- context [String.eqb ?s ""] => destruct (String.eqb_spec s "")
            end; simpl; subst); try done.
Qed.

End ConstructorFacts.

(** ** The resolver of gvm.go and the present one *)

Section LegacyFacts.

Context {L : Semver} {W : Platform}.
Variable o : Legacy.Options.

(** The asset name that gvm.go computes once, before its loop. *)
Let fn : string :=
  Legacy.AssetNameFunc o (Legacy.GOOS o) (Legacy.GOARCH o).

Lemma legacy_scan_assets g assets tags :
  Legacy.scan_assets fn g assets tags = scan_assets (of_legacy o) g assets tags.
Proof. induction assets as [|a rest IH]; simpl; [done|]. by rewrite IH. Qed.

Lemma legacy_ListReleases_loop_unconstrained gr tags :
  Legacy.ListReleases_loop fn "" gr tags =
  ListReleases_loop (of_legacy o) "" gr tags.
Proof.
  revert tags. induction gr as [|g gr IH]; intros tags; simpl; [done|].
  by rewrite legacy_scan_assets, IH.
Qed.

Lemma legacy_ListReleases_loop_succeeds constraint gr tags :
  (exists m, Legacy.ListReleases_loop fn constraint gr tags = Ok m) <->
  constraint = "" \/ gr = [] \/ exists c, NewConstraint constraint = Ok c.
Proof.
  destruct (String.eqb_spec constraint "") as [->|Hne].
  { split; [by left|]. intros _.
    rewrite legacy_ListReleases_loop_unconstrained, ListReleases_loop_unconstrained.
    by eexists. }
  revert tags. induction gr as [|g gr IH]; intros tags.
  { split; [by right; left|]. intros _. by eexists. }
  simpl. rewrite (proj2 (String.eqb_neq constraint "") Hne). simpl.
  destruct (NewConstraint constraint) as [c|e] eqn:Hc.
  - assert (forall tags',
      (exists m, Legacy.ListReleases_loop fn constraint gr tags' = Ok m) <->
      constraint = "" \/ g :: gr = [] \/ exists c0, Ok c = Ok c0) as Hstep.
    { intros tags'. rewrite IH. split; intros _; right; right; by eexists. }
    destruct (NewVersion (TagName g)) as [v|]; [|apply Hstep].
    destruct (Check c v); simpl; apply Hstep.
  - split; [by intros [? [=]]|]. by intros [?|[[=]|[? [=]]]].
Qed.

(** X13. In gvm.go, once GitHub has answered, ListReleases fails only for a
    constraint that is not empty and does not parse, and only when there is
    a release: no tag makes it fail. *)
Theorem legacy_ListReleases_succeeds_iff constraint gr :
  client_ListReleases (Legacy.Organization o) (Legacy.Repo o) = Ok gr ->
  (exists m, Legacy.ListReleases o constraint = Ok m) <->
  constraint = "" \/ gr = [] \/ exists c, NewConstraint constraint = Ok c.
Proof.
  intros Hgr. unfold Legacy.ListReleases. rewrite Hgr.
  apply legacy_ListReleases_loop_succeeds.
Qed.

Lemma legacy_ListReleases_loop_agrees constraint gr tags m :
  ListReleases_loop (of_legacy o) constraint gr tags = Ok m ->
  Legacy.ListReleases_loop fn constraint gr tags = Ok m.
Proof.
  destruct (String.eqb_spec constraint "") as [->|Hne].
  { by rewrite legacy_ListReleases_loop_unconstrained. }
  revert tags. induction gr as [|g gr IH]; intros tags; [done|].
  simpl. rewrite (proj2 (String.eqb_neq constraint "") Hne). simpl.
  unfold InRange. destruct (NewConstraint constraint) as [c|]; [|done].
  destruct (NewVersion (TagName g)) as [v|]; [|done].
  destruct (Check c v); simpl; [|apply IH].
  rewrite legacy_scan_assets. apply IH.
Qed.

Lemma legacy_ListReleases_loop_agrees_parsed constraint gr tags :
  Forall (fun g => parses (TagName g)) gr ->
  (exists c, NewConstraint constraint = Ok c) ->
  Legacy.ListReleases_loop fn constraint gr tags =
  ListReleases_loop (of_legacy o) constraint gr tags.
Proof.
  intros Hall [c Hc].
  destruct (String.eqb_spec constraint "") as [->|Hne].
  { by rewrite legacy_ListReleases_loop_unconstrained. }
  revert tags. induction Hall as [|g gr [v Hv] _ IH]; intros tags; [done|].
  simpl. rewrite (proj2 (String.eqb_neq constraint "") Hne). simpl.
  unfold InRange. rewrite Hc, Hv.
  destruct (Check c v); simpl; [|apply IH].
  rewrite legacy_scan_assets. apply IH.
Qed.

(** X14. The two resolvers list the same releases wherever the present one
    lists any: a catalog returned by the present ListReleases, with naming
    functions that do not look at the version, is the catalog that gvm.go
    returns; and when the constraint parses and every tag is a version the
    two calls are equal. *)
Theorem legacy_ListReleases_agrees constraint gr :
  client_ListReleases (Legacy.Organization o) (Legacy.Repo o) = Ok gr ->
  (forall m, ListReleases (of_legacy o) constraint = Ok m ->
             Legacy.ListReleases o constraint = Ok m) /\
  (Forall (fun g => parses (TagName g)) gr ->
   (exists c, NewConstraint constraint = Ok c) ->
   Legacy.ListReleases o constraint = ListReleases (of_legacy o) constraint).
Proof.
  intros Hgr. unfold Legacy.ListReleases, ListReleases. simpl. rewrite Hgr. split.
  - intros m. apply legacy_ListReleases_loop_agrees.
  - intros Hall Hc. by apply legacy_ListReleases_loop_agrees_parsed.
Qed.

Lemma legacy_ListInstalledVersions_loop_succeeds constraint files versions :
  (exists m, Legacy.ListInstalledVersions_loop o constraint files versions = Ok m) <->
  constraint = "" \/ files = [] \/ exists c, NewConstraint constraint = Ok c.
Proof.
  destruct (String.eqb_spec constraint "") as [->|Hne].
  { split; [by left|]. intros _. revert versions.
    induction files as [|f files IH]; intros versions; [by eexists|apply IH]. }
  revert versions. induction files as [|f files IH]; intros versions.
  { split; [by right; left|]. intros _. by eexists. }
  simpl. rewrite (proj2 (String.eqb_neq constraint "") Hne). simpl.
  destruct (NewConstraint constraint) as [c|e] eqn:Hc.
  - assert (forall versions',
      (exists m, Legacy.ListInstalledVersions_loop o constraint files versions' = Ok m) <->
      constraint = "" \/ f :: files = [] \/ exists c0, Ok c = Ok c0) as Hstep.
    { intros versions'. rewrite IH. split; intros _; right; right; by eexists. }
    destruct (NewVersion f) as [v|]; [|apply Hstep].
    destruct (Check c v); simpl; apply Hstep.
  - split; [by intros [? [=]]|]. by intros [?|[[=]|[? [=]]]].
Qed.

Lemma legacy_ListInstalledVersions_loop_agrees constraint files versions m :
  Legacy.ListInstalledVersions_loop o constraint files versions = Ok m ->
  ListInstalledVersions_loop (of_legacy o) constraint files versions = m.
Proof.
  revert versions. induction files as [|f files IH]; intros versions.
  { by intros [= <-]. }
  simpl. destruct (String.eqb_spec constraint "") as [->|Hne]; simpl; [apply IH|].
  unfold InRange. destruct (NewConstraint constraint) as [c|]; [|done].
  destruct (NewVersion f) as [v|]; simpl; [|apply IH].
  destruct (Check c v); simpl; apply IH.
Qed.

(** X15. In gvm.go, once the releases directory has been read,
    ListInstalledVersions fails exactly for a constraint that is not empty
    and does not parse, when the directory has an entry; and a catalog it
    returns is the catalog that the present ListInstalledVersions returns. *)
Theorem legacy_ListInstalledVersions_agrees fs files constraint :
  ioutil_ReadDir fs (Legacy.ReleasesPath o) = Ok files ->
  ((exists m, Legacy.ListInstalledVersions o fs constraint = Ok m) <->
   constraint = "" \/ files = [] \/ exists c, NewConstraint constraint = Ok c) /\
  (forall m, Legacy.ListInstalledVersions o fs constraint = Ok m ->
             ListInstalledVersions (of_legacy o) fs constraint = Ok m).
Proof.
  intros Hfiles. unfold Legacy.ListInstalledVersions, ListInstalledVersions.
  simpl. rewrite Hfiles. split.
  - apply legacy_ListInstalledVersions_loop_succeeds.
  - intros m Hm. f_equal. by apply legacy_ListInstalledVersions_loop_agrees.
Qed.

Lemma set_or_nil (l : list (option Version)) : Forall is_Some l \/ None ∈ l.
Proof.
  induction l as [|[v|] l [IH|IH]].
  - by left.
  - left. constructor; [by eexists|done].
  - right. by right.
  - right. by left.
  - right. by left.
Qed.

Lemma legacy_latest rho assets : Legacy.latest rho assets = latest rho assets.
Proof.
  unfold Legacy.latest, latest, SortMapKeys, sort_Sort.
  destruct (set_or_nil (NewVersion_ptr <$> rho assets)) as [Hall|Hnil].
  - destruct (all_set _ Hall) as [ws ->].
    change [] with (Some <$> @nil Version).
    rewrite insertionSort_Some. simpl.
    rewrite go_mapM_Original. simpl. rewrite !fmap_last.
    by destruct (last _).
  - destruct (insertionSort_nil_pointer (NewVersion_ptr <$> rho assets) [])
      as [-> | ->]; [by right|by rewrite app_nil_r|done|done].
Qed.

Lemma legacy_ListReleases_same constraint m :
  ListReleases (of_legacy o) constraint = Ok m ->
  Legacy.ListReleases o constraint = Ok m.
Proof.
  unfold Legacy.ListReleases, ListReleases. simpl.
  destruct (client_ListReleases _ _) as [gr|]; [|done].
  apply legacy_ListReleases_loop_agrees.
Qed.

Lemma legacy_ListInstalledVersions_same fs constraint m :
  Legacy.ListInstalledVersions o fs constraint = Ok m ->
  ListInstalledVersions (of_legacy o) fs constraint = Ok m.
Proof.
  unfold Legacy.ListInstalledVersions, ListInstalledVersions. simpl.
  destruct (ioutil_ReadDir _ _) as [files|]; [|done].
  intros Hm. f_equal. by apply legacy_ListInstalledVersions_loop_agrees.
Qed.

(** X16. Sorting through SortMapKeys changed nothing in the selection:
    where the present ListReleases returns a catalog, GetLatestReleaseURL of
    gvm.go returns what the present one returns, and panics where it
    panics; and so does GetInstalledVersion where the ListInstalledVersions
    of gvm.go returns a catalog. *)
Theorem legacy_selectors_agree rho fs constraint m :
  (ListReleases (of_legacy o) constraint = Ok m ->
   Legacy.GetLatestReleaseURL o rho constraint =
   GetLatestReleaseURL (of_legacy o) rho constraint) /\
  (Legacy.ListInstalledVersions o fs constraint = Ok m ->
   Legacy.GetInstalledVersion o rho fs constraint =
   GetInstalledVersion (of_legacy o) rho fs constraint).
Proof.
  unfold Legacy.GetLatestReleaseURL, GetLatestReleaseURL,
         Legacy.GetInstalledVersion, GetInstalledVersion.
  split; intros Hm.
  - rewrite Hm, (legacy_ListReleases_same _ _ Hm). apply legacy_latest.
  - rewrite Hm, (legacy_ListInstalledVersions_same _ _ _ Hm). apply legacy_latest.
Qed.

End LegacyFacts.

(** * The reference instance and the test bench *)

Lemma Masterminds_keeps_original : @keeps_original Masterminds.semver.
Proof.
  intros s v. simpl. unfold Masterminds.NewVersion.
  repeat case_match; try done; by intros [= <-].
Qed.

Lemma forwards_valid : valid_iteration Bench.forwards.
Proof. by intros m. Qed.

Lemma backwards_valid : valid_iteration Bench.backwards.
Proof. intros m. apply reverse_Permutation. Qed.

Lemma append_assoc (a b c : string) :
  ((a ++ b) ++ c)%string = (a ++ (b ++ c))%string.
Proof.
  induction a as [|x a IH]; [done|].
  change (String x ((a ++ b) ++ c) = String x (a ++ (b ++ c)))%string.
  by rewrite IH.
Qed.

Lemma join_slash_single (e : string) : Bench.join_slash [e] = e.
Proof. simpl. by destruct (String.eqb_spec e ""). Qed.

Lemma join_slash_cons (e : string) (elem : list string) :
  Bench.join_slash (e :: elem) =
  if String.eqb e "" then Bench.join_slash elem
  else if String.eqb (Bench.join_slash elem) "" then e
  else (e ++ "/" ++ Bench.join_slash elem)%string.
Proof. done. Qed.

Lemma join_slash_nests (gr : list RepositoryRelease) :
  @Join_nests (Bench.platform gr).
Proof.
  intros a b c.
  change (Bench.join_slash [Bench.join_slash [a; b]; c] = Bench.join_slash [a; b; c]).
  rewrite (join_slash_cons a [b; c]), (join_slash_cons b [c]),
          (join_slash_cons _ [c]), (join_slash_cons a [b]),
          !join_slash_single.
  destruct (String.eqb_spec a "") as [->|Ha].
  { by destruct (String.eqb_spec b ""), (String.eqb_spec c ""). }
  destruct (String.eqb_spec b "") as [->|Hb].
  { rewrite (proj2 (String.eqb_neq a "") Ha).
    by destruct (String.eqb_spec c ""). }
  assert (forall r, String.eqb (a ++ r) "" = false) as Hnonempty.
  { intros r. destruct a; [done|]. done. }
  rewrite Hnonempty.
  destruct (String.eqb_spec c "") as [->|Hc].
  { by rewrite (proj2 (String.eqb_neq b "") Hb). }
  assert (String.eqb (b ++ "/" ++ c) "" = false) as ->.
  { destruct b; [done|]. done. }
  by rewrite !append_assoc.
Qed.

#[global] Existing Instance Masterminds.semver.

(** ** ListReleases and a tag that is no version *)

(** C1, on the code. With the releases [latest] and [v0.14.1] and the
    constraint [~0.14.0], ListReleases returns the error of [InRange] for the
    tag [latest], under the message for a bad constraint, and no catalog. *)
Theorem ListReleases_fails_on_non_semver_tag :
  ListReleases (W := Bench.github_with_latest) Bench.options "~0.14.0" =
  Err (Errorf "Invalid sematic version constraint"
         (Errorf "Invalid sematic version" Masterminds.ErrInvalidSemVer)).
Proof. reflexivity. Qed.

(** Without the release [latest] the same call lists [v0.14.1]. *)
Example ListReleases_without_latest :
  ListReleases (W := Bench.platform [Bench.release "v0.14.1"]) Bench.options "~0.14.0" =
  Ok {[ "v0.14.1" := Bench.url_of "v0.14.1" ]}.
Proof. by vm_compute. Qed.

(** ** ListInstalledVersions and a constraint that does not parse *)

(** With the entry [v0.14.1] and the constraint [abd], which does not
    parse, ListInstalledVersions returns an empty catalog and no error. *)
Lemma ListInstalledVersions_bad_constraint_no_error :
  NewConstraint "abd" = Err (ErrorString "improper constraint") /\
  ListInstalledVersions (W := Bench.offline) Bench.options ["v0.14.1"] "abd" = Ok ∅ /\
  ~ exists e, ListInstalledVersions (W := Bench.offline) Bench.options
                ["v0.14.1"] "abd" = Err e.
Proof. split_and!; [reflexivity|by vm_compute|]. by intros [e [=]]. Qed.

Lemma ListInstalledVersions_bad_constraint_witness :
  "abd" <> "" /\
  NewConstraint "abd" = Err (ErrorString "improper constraint") /\
  ioutil_ReadDir (Platform := Bench.offline) Bench.installed
    (ReleasesPath Bench.options) = Ok Bench.installed /\
  ListInstalledVersions (W := Bench.offline) Bench.options Bench.installed "abd" = Ok ∅.
Proof.
  split_and!; [done|reflexivity|reflexivity|].
  by apply (ListInstalledVersions_bad_constraint (W := Bench.offline) Bench.options
              Bench.installed Bench.installed "abd"
              (ErrorString "improper constraint")).
Defined.

(** ** SortMapKeys *)

(** C3 fails on the code: on a mapping with the keys [latest] and [v0.14.1]
    SortMapKeys does not return; [latest] is not dropped and [v0.14.1] is
    not returned. *)
Lemma SortMapKeys_non_semver_key_panics :
  Bench.forwards Bench.with_latest = ["v0.14.1"; "latest"] /\
  Bench.backwards Bench.with_latest = ["latest"; "v0.14.1"] /\
  SortMapKeys Bench.forwards Bench.with_latest false = Panic /\
  SortMapKeys Bench.forwards Bench.with_latest true = Panic /\
  SortMapKeys Bench.backwards Bench.with_latest false = Panic /\
  SortMapKeys Bench.backwards Bench.with_latest true = Panic.
Proof. split_and!; by vm_compute. Qed.

Lemma SortMapKeys_sorts_versions_witness :
  valid_iteration Bench.forwards /\ keeps_original /\
  Forall parses (keys Bench.installed_catalog) /\
  precedence_on (keys Bench.installed_catalog) /\
  exists l, SortMapKeys Bench.forwards Bench.installed_catalog true = Return l /\
            l ≡ₚ keys Bench.installed_catalog /\
            StronglySorted precedes (reverse l).
Proof.
  assert (Forall parses (keys Bench.installed_catalog)) as Hparses.
  { apply parsesb_all. by vm_compute. }
  assert (precedence_on (keys Bench.installed_catalog)) as Hord.
  { apply precedence_onb_spec. by vm_compute. }
  split_and!; [exact forwards_valid|exact Masterminds_keeps_original|done..|].
  exact (SortMapKeys_sorts_versions Bench.forwards Bench.installed_catalog true
           forwards_valid Masterminds_keeps_original Hparses Hord).
Defined.

(** C7 fails on the code: the keys [1.0.0] and [v1.0.0] have the same
    precedence, and two calls that range over the map in different orders
    give the same list, ascending and descending. *)
Lemma SortMapKeys_descending_not_reverse :
  Forall parses (keys Bench.two_spellings) /\
  Bench.forwards Bench.two_spellings = ["1.0.0"; "v1.0.0"] /\
  Bench.backwards Bench.two_spellings = ["v1.0.0"; "1.0.0"] /\
  exists l, SortMapKeys Bench.forwards Bench.two_spellings false = Return l /\
            SortMapKeys Bench.backwards Bench.two_spellings true = Return l /\
            l <> reverse l.
Proof.
  split_and!; [apply parsesb_all; by vm_compute|by vm_compute..|].
  exists ["1.0.0"; "v1.0.0"]. split_and!; by vm_compute.
Qed.

Lemma SortMapKeys_descending_is_reverse_witness :
  valid_iteration Bench.forwards /\ valid_iteration Bench.backwards /\
  keeps_original /\
  Forall parses (keys Bench.installed_catalog) /\
  precedence_on (keys Bench.installed_catalog) /\
  no_ties (keys Bench.installed_catalog) /\
  SortMapKeys Bench.forwards Bench.installed_catalog false =
    Return ["v0.14.1"; "v0.14.2"] /\
  exists l, SortMapKeys Bench.forwards Bench.installed_catalog false = Return l /\
            StronglySorted precedes l /\
            SortMapKeys Bench.forwards Bench.installed_catalog true = Return (reverse l) /\
            SortMapKeys Bench.backwards Bench.installed_catalog true = Return (reverse l).
Proof.
  assert (Forall parses (keys Bench.installed_catalog)) as Hparses.
  { apply parsesb_all. by vm_compute. }
  assert (precedence_on (keys Bench.installed_catalog)) as Hord.
  { apply precedence_onb_spec. by vm_compute. }
  assert (no_ties (keys Bench.installed_catalog)) as Hties.
  { apply no_tiesb_spec. by vm_compute. }
  split_and!; [exact forwards_valid|exact backwards_valid|
               exact Masterminds_keeps_original|done..|by vm_compute|].
  destruct (SortMapKeys_descending_is_reverse Bench.forwards Bench.backwards
              Bench.installed_catalog forwards_valid backwards_valid
              Masterminds_keeps_original Hparses Hord)
    as (l & Hasc & Hsorted & Hdesc & Hany).
  exists l. split_and!; auto.
Defined.

(** ** Selecting the latest *)

Lemma latest_returns_catalog_entry_witness :
  valid_iteration Bench.forwards /\ keeps_original /\
  Forall parses (keys Bench.installed_catalog) /\
  Bench.installed_catalog <> ∅ /\
  ListInstalledVersions (W := Bench.offline) Bench.options Bench.installed
    "~v0.14.0" = Ok Bench.installed_catalog /\
  picks Bench.installed_catalog
    (GetInstalledVersion (W := Bench.offline) Bench.options Bench.forwards
       Bench.installed "~v0.14.0").
Proof.
  assert (Forall parses (keys Bench.installed_catalog)) as Hparses.
  { apply parsesb_all. by vm_compute. }
  assert (Bench.installed_catalog <> ∅) as Hne.
  { intros Hempty. apply (f_equal (lookup "v0.14.1")) in Hempty.
    by vm_compute in Hempty. }
  assert (ListInstalledVersions (W := Bench.offline) Bench.options Bench.installed
            "~v0.14.0" = Ok Bench.installed_catalog) as Hlist.
  { by vm_compute. }
  split_and!; [exact forwards_valid|exact Masterminds_keeps_original|done..|].
  exact (proj2 (latest_returns_catalog_entry (W := Bench.offline) Bench.options
                  Bench.forwards Bench.installed "~v0.14.0"
                  Bench.installed_catalog forwards_valid
                  Masterminds_keeps_original Hparses Hne) Hlist).
Defined.

(** The tests' scenarios: the latest release for [~v0.12.0], and the latest
    installed version for [~v0.14.0]. *)
Example GetLatestReleaseURL_test :
  GetLatestReleaseURL (W := Bench.github) Bench.options Bench.forwards "~v0.12.0" =
  Return ("v0.12.2", Bench.url_of "v0.12.2", None).
Proof. by vm_compute. Qed.

Example GetInstalledVersion_test :
  GetInstalledVersion (W := Bench.offline) Bench.options Bench.backwards
    Bench.installed "~v0.14.0" =
  Return ("v0.14.2", "/tmp/releases/v0.14.2/fake-service-linux", None).
Proof. by vm_compute. Qed.

Lemma latest_of_empty_catalog_witness :
  valid_iteration Bench.backwards /\
  ListReleases (W := Bench.github) Bench.options "~1.0.0" = Ok ∅ /\
  GetLatestReleaseURL (W := Bench.github) Bench.options Bench.backwards "~1.0.0" =
    Return ("", "", None) /\
  ListInstalledVersions (W := Bench.github) Bench.options Bench.installed
    "~1.0.0" = Ok ∅ /\
  GetInstalledVersion (W := Bench.github) Bench.options Bench.backwards
    Bench.installed "~1.0.0" = Return ("", "", None).
Proof.
  assert (ListReleases (W := Bench.github) Bench.options "~1.0.0" = Ok ∅) as Hremote.
  { by vm_compute. }
  assert (ListInstalledVersions (W := Bench.github) Bench.options Bench.installed
            "~1.0.0" = Ok ∅) as Hlocal.
  { by vm_compute. }
  pose proof (latest_of_empty_catalog (W := Bench.github) Bench.options
                Bench.backwards Bench.installed "~1.0.0" backwards_valid)
    as [Hlatest Hinstalled].
  split_and!; [exact backwards_valid|done|by apply Hlatest|done|by apply Hinstalled].
Defined.

(** ** The listings *)

Lemma ListReleases_first_matching_asset_witness :
  client_ListReleases (Platform := Bench.github)
    (Organization Bench.options) (Repo Bench.options) =
    Ok [Bench.release "v0.14.1"; Bench.release "v0.13.0"; Bench.release "v0.12.2"] /\
  ListReleases (W := Bench.github) Bench.options "~0.14.0" =
    Ok {[ "v0.14.1" := Bench.url_of "v0.14.1" ]} /\
  ({[ "v0.14.1" := Bench.url_of "v0.14.1" ]} : gmap string string) =
    foldl (record_release (W := Bench.github) Bench.options) ∅
      (List.filter (passesb "~0.14.0")
         [Bench.release "v0.14.1"; Bench.release "v0.13.0"; Bench.release "v0.12.2"]) /\
  List.filter (passesb "~0.14.0")
    [Bench.release "v0.14.1"; Bench.release "v0.13.0"; Bench.release "v0.12.2"] =
    [Bench.release "v0.14.1"] /\
  Assets (Bench.release "v0.14.1") =
    ([Bench.asset "fake-service-osx" "v0.14.1"] ++
     Bench.asset "fake-service-linux" "v0.14.1" ::
     [Bench.asset "fake-service.exe" "v0.14.1"])%list /\
  ~ asset_matches (W := Bench.github) Bench.options (Bench.release "v0.14.1")
      (Bench.asset "fake-service-osx" "v0.14.1") /\
  asset_matches (W := Bench.github) Bench.options (Bench.release "v0.14.1")
    (Bench.asset "fake-service-linux" "v0.14.1") /\
  record_release (W := Bench.github) Bench.options ∅ (Bench.release "v0.14.1") =
    <[ "v0.14.1" :=
         "https://github.com/nicholasjackson/fake-service/releases/download/v0.14.1/fake-service-linux" ]> ∅.
Proof.
  assert (ListReleases (W := Bench.github) Bench.options "~0.14.0" =
            Ok {[ "v0.14.1" := Bench.url_of "v0.14.1" ]}) as Hlist.
  { by vm_compute. }
  destruct (ListReleases_first_matching_asset (W := Bench.github) Bench.options
              "~0.14.0" _ _ eq_refl Hlist) as (Hfold & _ & Hrecord).
  split_and!; [reflexivity|done|exact Hfold|by vm_compute|reflexivity| |reflexivity|].
  - by intros [=].
  - destruct (Hrecord (Bench.release "v0.14.1") ∅)
      as [[Hnone _]|(before & a & after & _ & _ & _ & Hrec)]; [|by vm_compute].
    apply Forall_cons in Hnone as [_ Hnone].
    apply Forall_cons in Hnone as [Hlinux _]. destruct Hlinux. reflexivity.
Defined.

(** The second asset is the one for linux, and its URL is the one listed. *)
Example ListReleases_test :
  ListReleases (W := Bench.platform [Bench.release "v0.14.1"]) Bench.options "" =
  Ok {[ "v0.14.1" :=
        "https://github.com/nicholasjackson/fake-service/releases/download/v0.14.1/fake-service-linux" ]}.
Proof. by vm_compute. Qed.

Lemma tag_kept_version_stripped_witness :
  (ListReleases (W := Bench.github) Bench.options "~0.14.0" =
     Ok {[ "v0.14.1" := Bench.url_of "v0.14.1" ]} /\
   exists gr g a,
     client_ListReleases (Platform := Bench.github)
       (Organization Bench.options) (Repo Bench.options) = Ok gr /\
     g ∈ gr /\ a ∈ Assets g /\ TagName g = "v0.14.1" /\
     BrowserDownloadURL a = Bench.url_of "v0.14.1" /\
     Bench.lower_string (Name a) =
     Bench.lower_string (Bench.nf (TrimLeft_v "v0.14.1") "linux" "x64")) /\
  (ListInstalledVersions (W := Bench.github) Bench.options Bench.installed
     "~v0.14.0" = Ok Bench.installed_catalog /\
   exists files,
     ioutil_ReadDir (Platform := Bench.github) Bench.installed "/tmp/releases" =
       Ok files /\
     "v0.14.2" ∈ files /\
     "/tmp/releases/v0.14.2/fake-service-linux" =
     Bench.join_slash ["/tmp/releases"; "v0.14.2";
                       Bench.nf (TrimLeft_v "v0.14.2") "linux" "x64"]) /\
  (DownloadRelease (W := Bench.github) Bench.options "v0.14.1"
     (Bench.url_of "v0.14.1") [] =
     (Ok "/tmp/releases/v0.14.1/fake-service-linux", []) /\
   "/tmp/releases/v0.14.1/fake-service-linux" =
   Bench.join_slash [Bench.join_slash ["/tmp/releases"; "v0.14.1"];
                     Bench.nf (TrimLeft_v "v0.14.1") "linux" "x64"]) /\
  TrimLeft_v "v0.14.1" = "0.14.1".
Proof.
  destruct (tag_kept_version_stripped (W := Bench.github) Bench.options)
    as (Hremote & Hlocal & Hdownload & Hstrip).
  assert (ListReleases (W := Bench.github) Bench.options "~0.14.0" =
            Ok {[ "v0.14.1" := Bench.url_of "v0.14.1" ]}) as Hlist.
  { by vm_compute. }
  assert (ListInstalledVersions (W := Bench.github) Bench.options Bench.installed
            "~v0.14.0" = Ok Bench.installed_catalog) as Hdirs.
  { by vm_compute. }
  assert (DownloadRelease (W := Bench.github) Bench.options "v0.14.1"
            (Bench.url_of "v0.14.1") [] =
          (Ok "/tmp/releases/v0.14.1/fake-service-linux", [])) as Hfetch.
  { by vm_compute. }
  split_and!; [done| |done| |done| |done].
  - apply (Hremote _ _ "v0.14.1" _ Hlist). by vm_compute.
  - apply (Hlocal _ _ _ "v0.14.2" _ Hdirs). by vm_compute.
  - by destruct (Hdownload _ _ _ _ _ Hfetch) as (fs1 & _ & _ & ->).
Defined.

Lemma unconstrained_listing_keeps_every_tag_witness :
  NewVersion "latest" = Err Masterminds.ErrInvalidSemVer /\
  (exists m, ListInstalledVersions (W := Bench.github_with_latest) Bench.options
               ["latest"; "v0.14.1"] "" = Ok m /\
             m !! "latest" = Some "/tmp/releases/latest/fake-service-linux") /\
  (exists m, ListReleases (W := Bench.github_with_latest) Bench.options "" = Ok m /\
             is_Some (m !! "latest")).
Proof.
  destruct (unconstrained_listing_keeps_every_tag (W := Bench.github_with_latest)
              Bench.options) as (_ & Hlocal & Hremote).
  split_and!; [reflexivity| |].
  - destruct (Hlocal ["latest"; "v0.14.1"] ["latest"; "v0.14.1"] eq_refl)
      as (m & Hm & Hall).
    exists m. split; [done|]. apply (Hall "latest"). by left.
  - destruct (Hremote _ eq_refl) as (m & Hm & Hall).
    exists m. split; [done|].
    apply (Hall (Bench.release "latest")
             (Bench.asset "fake-service-linux" "latest")).
    + by left.
    + right. by left.
    + reflexivity.
Defined.

(** The catalog that holds the tag [latest]. *)
Example ListReleases_unconstrained_test :
  ListReleases (W := Bench.github_with_latest) Bench.options "" =
  Ok Bench.with_latest.
Proof. by vm_compute. Qed.

(** ** DownloadRelease *)

Lemma DownloadRelease_steps_witness :
  DownloadRelease (W := Bench.github) (Bench.options_in "/proc/releases")
    "v0.14.1" (Bench.url_of "v0.14.1") [] =
    (Err (Errorf "Unable to create temporary folder"
            (ErrorString "mkdir: permission denied")), []) /\
  DownloadRelease (W := Bench.github) Bench.options "v0.14.1" "" [] =
    (Err (Errorf "Unable to download file"
            (ErrorString "download not supported")), []) /\
  DownloadRelease (W := Bench.github) Bench.options "v0.14.1"
    (Bench.url_of "v0.14.1") [] =
    (Ok (download_path (W := Bench.github) Bench.options "v0.14.1"), []) /\
  download_path (W := Bench.github) Bench.options "v0.14.1" =
    Bench.join_slash ["/tmp/releases"; "v0.14.1"; "fake-service-linux"] /\
  Bench.join_slash ["/tmp/releases"; "v0.14.1"; "fake-service-linux"] =
    "/tmp/releases/v0.14.1/fake-service-linux".
Proof.
  split_and!.
  - by apply (proj1 (DownloadRelease_steps (W := Bench.github)
                       (Bench.options_in "/proc/releases") "v0.14.1"
                       (Bench.url_of "v0.14.1") [])).
  - by apply (proj1 (proj2 (DownloadRelease_steps (W := Bench.github)
                       Bench.options "v0.14.1" "" [])) []).
  - by apply (proj2 (proj2 (DownloadRelease_steps (W := Bench.github)
                       Bench.options "v0.14.1" (Bench.url_of "v0.14.1") [])) [] []).
  - by apply (proj2 (proj2 (DownloadRelease_steps (W := Bench.github)
                       Bench.options "v0.14.1" (Bench.url_of "v0.14.1") [])) [] []);
      [| |apply join_slash_nests].
  - reflexivity.
Defined.

(** * The further properties on the test bench *)

Lemma bench_tags_parse :
  Forall (fun g => parses (TagName g))
    [Bench.release "v0.14.1"; Bench.release "v0.13.0"; Bench.release "v0.12.2"].
Proof. repeat constructor; apply parsesb_spec; reflexivity. Qed.

Lemma ListReleases_succeeds_iff_witness :
  client_ListReleases (Platform := Bench.github)
    (Organization Bench.options) (Repo Bench.options) =
    Ok [Bench.release "v0.14.1"; Bench.release "v0.13.0"; Bench.release "v0.12.2"] /\
  (exists m, ListReleases (W := Bench.github) Bench.options "~0.14.0" = Ok m) /\
  ~ (exists m, ListReleases (W := Bench.github_with_latest) Bench.options
                 "~0.14.0" = Ok m).
Proof.
  split_and!; [reflexivity| |].
  - apply (ListReleases_succeeds_iff (W := Bench.github) Bench.options "~0.14.0"
             _ eq_refl).
    right. right. split; [by eexists|]. exact bench_tags_parse.
  - intros Hok.
    apply (ListReleases_succeeds_iff (W := Bench.github_with_latest) Bench.options
             "~0.14.0" _ eq_refl) in Hok as [[=]|[[=]|[_ Hall]]].
    apply Forall_cons in Hall as [[v [=]] _].
Defined.

Lemma ListReleases_bad_constraint_witness :
  "abd" <> "" /\
  NewConstraint "abd" = Err (ErrorString "improper constraint") /\
  ListReleases (W := Bench.offline) Bench.options "abd" = Ok ∅ /\
  ListReleases (W := Bench.github) Bench.options "abd" =
    Err (Errorf "Invalid sematic version constraint"
           (Errorf "Invalid sematic version constraint"
              (ErrorString "improper constraint"))).
Proof.
  split_and!; [done|reflexivity| |].
  - by apply (ListReleases_bad_constraint (W := Bench.offline) Bench.options "abd"
                (ErrorString "improper constraint") []).
  - by apply (ListReleases_bad_constraint (W := Bench.github) Bench.options "abd"
                (ErrorString "improper constraint")
                [Bench.release "v0.14.1"; Bench.release "v0.13.0";
                 Bench.release "v0.12.2"]).
Defined.

Lemma ListReleases_keys_witness :
  ListReleases (W := Bench.github) Bench.options "~0.14.0" =
    Ok {[ "v0.14.1" := Bench.url_of "v0.14.1" ]} /\
  (exists g, g ∈ [Bench.release "v0.14.1"; Bench.release "v0.13.0";
                  Bench.release "v0.12.2"] /\
             TagName g = "v0.14.1" /\
             contributes (W := Bench.github) Bench.options "~0.14.0" g) /\
  ~ (exists g, g ∈ [Bench.release "v0.14.1"; Bench.release "v0.13.0";
                    Bench.release "v0.12.2"] /\
               TagName g = "v0.13.0" /\
               contributes (W := Bench.github) Bench.options "~0.14.0" g).
Proof.
  assert (ListReleases (W := Bench.github) Bench.options "~0.14.0" =
            Ok {[ "v0.14.1" := Bench.url_of "v0.14.1" ]}) as Hlist.
  { by vm_compute. }
  split_and!; [done| |].
  - apply (ListReleases_keys (W := Bench.github) Bench.options "~0.14.0" _ _
             "v0.14.1" eq_refl Hlist).
    exists (Bench.url_of "v0.14.1"). by vm_compute.
  - intros Hg.
    apply (ListReleases_keys (W := Bench.github) Bench.options "~0.14.0" _ _
             "v0.13.0" eq_refl Hlist) in Hg as [u Hu]. by vm_compute in Hu.
Defined.

Lemma ListReleases_last_release_wins_witness :
  passes "" Scenarios.mirrored /\
  first_asset (W := Scenarios.github_twice) Bench.options Scenarios.mirrored
    (Bench.asset "fake-service-linux" "mirror") /\
  ListReleases (W := Scenarios.github_twice) Bench.options "" =
    Ok {[ "v0.14.1" := Bench.url_of "mirror"; "v0.13.0" := Bench.url_of "v0.13.0" ]} /\
  ({[ "v0.14.1" := Bench.url_of "mirror"; "v0.13.0" := Bench.url_of "v0.13.0" ]}
     : gmap string string) !! TagName Scenarios.mirrored =
    Some (BrowserDownloadURL (Bench.asset "fake-service-linux" "mirror")).
Proof.
  assert (passes "" Scenarios.mirrored) as Hp by (by left).
  assert (first_asset (W := Scenarios.github_twice) Bench.options Scenarios.mirrored
            (Bench.asset "fake-service-linux" "mirror")) as Ha.
  { exists [Bench.asset "fake-service-osx" "mirror"], []. split_and!; [done| |].
    - repeat constructor. by intros [=].
    - reflexivity. }
  assert (ListReleases (W := Scenarios.github_twice) Bench.options "" =
            Ok {[ "v0.14.1" := Bench.url_of "mirror";
                  "v0.13.0" := Bench.url_of "v0.13.0" ]}) as Hlist.
  { by vm_compute. }
  split_and!; [done..|].
  apply (ListReleases_last_release_wins (W := Scenarios.github_twice) Bench.options
           "" [Bench.release "v0.14.1"] Scenarios.mirrored
           [Bench.release "v0.13.0"] _ _ eq_refl Hlist Hp Ha).
  repeat constructor. by intros [=].
Defined.

Lemma ListInstalledVersions_catalog_witness :
  ioutil_ReadDir (Platform := Bench.offline) Scenarios.with_stray
    (ReleasesPath Bench.options) = Ok Scenarios.with_stray /\
  ListInstalledVersions (W := Bench.offline) Bench.options Scenarios.with_stray
    "~v0.14.0" = Ok {[ "v0.14.1" := "/tmp/releases/v0.14.1/fake-service-linux" ]} /\
  ("v0.14.1" ∈ Scenarios.with_stray /\ admitted "~v0.14.0" "v0.14.1" /\
   "/tmp/releases/v0.14.1/fake-service-linux" =
   installed_path (W := Bench.offline) Bench.options "v0.14.1") /\
  ~ admitted "~v0.14.0" ".DS_Store".
Proof.
  assert (ListInstalledVersions (W := Bench.offline) Bench.options
            Scenarios.with_stray "~v0.14.0" =
          Ok {[ "v0.14.1" := "/tmp/releases/v0.14.1/fake-service-linux" ]}) as Hlist.
  { by vm_compute. }
  split; [reflexivity|]. split; [done|]. split.
  - apply (ListInstalledVersions_catalog (W := Bench.offline) Bench.options
             Scenarios.with_stray Scenarios.with_stray "~v0.14.0" _ "v0.14.1" _
             eq_refl Hlist). by vm_compute.
  - intros Hadm.
    assert (({[ "v0.14.1" := "/tmp/releases/v0.14.1/fake-service-linux" ]}
               : gmap string string) !! ".DS_Store" =
            Some (installed_path (W := Bench.offline) Bench.options ".DS_Store"))
      as Hk.
    { apply (ListInstalledVersions_catalog (W := Bench.offline) Bench.options
               Scenarios.with_stray Scenarios.with_stray "~v0.14.0" _ ".DS_Store" _
               eq_refl Hlist). split_and!; [by left|done..]. }
    by vm_compute in Hk.
Defined.

Lemma latest_is_highest_witness :
  valid_iteration Bench.backwards /\ keeps_original /\
  Forall parses (keys Bench.installed_catalog) /\
  precedence_on (keys Bench.installed_catalog) /\
  Bench.installed_catalog <> ∅ /\
  ListInstalledVersions (W := Bench.offline) Bench.options Bench.installed
    "~v0.14.0" = Ok Bench.installed_catalog /\
  picks_highest Bench.installed_catalog
    (GetInstalledVersion (W := Bench.offline) Bench.options Bench.backwards
       Bench.installed "~v0.14.0").
Proof.
  assert (Forall parses (keys Bench.installed_catalog)) as Hparses.
  { apply parsesb_all. by vm_compute. }
  assert (precedence_on (keys Bench.installed_catalog)) as Hord.
  { apply precedence_onb_spec. by vm_compute. }
  assert (Bench.installed_catalog <> ∅) as Hne.
  { intros Hempty. apply (f_equal (lookup "v0.14.1")) in Hempty.
    by vm_compute in Hempty. }
  assert (ListInstalledVersions (W := Bench.offline) Bench.options Bench.installed
            "~v0.14.0" = Ok Bench.installed_catalog) as Hlist.
  { by vm_compute. }
  split_and!; [exact backwards_valid|exact Masterminds_keeps_original|done..|].
  exact (proj2 (latest_is_highest (W := Bench.offline) Bench.options
                  Bench.backwards Bench.installed "~v0.14.0"
                  Bench.installed_catalog backwards_valid
                  Masterminds_keeps_original Hparses Hord Hne) Hlist).
Defined.

Lemma constrained_catalog_keys_are_versions_witness :
  valid_iteration Bench.backwards /\ "~0.14.0" <> "" /\
  ListInstalledVersions (W := Bench.offline) Bench.options Scenarios.with_stray
    "~0.14.0" = Ok {[ "v0.14.1" := "/tmp/releases/v0.14.1/fake-service-linux" ]} /\
  (InRange "v0.14.1" "~0.14.0" = (true, None) /\ parses "v0.14.1") /\
  exists l, SortMapKeys Bench.backwards
              {[ "v0.14.1" := "/tmp/releases/v0.14.1/fake-service-linux" ]} true =
            Return l.
Proof.
  assert (ListInstalledVersions (W := Bench.offline) Bench.options
            Scenarios.with_stray "~0.14.0" =
          Ok {[ "v0.14.1" := "/tmp/releases/v0.14.1/fake-service-linux" ]}) as Hlist.
  { by vm_compute. }
  assert ("~0.14.0" <> "") as Hne by done.
  destruct (constrained_catalog_keys_are_versions (W := Bench.offline)
              Bench.options Bench.backwards Scenarios.with_stray "~0.14.0" _
              backwards_valid Hne (or_intror Hlist)) as [Hkeys Hsort].
  split; [exact backwards_valid|]. split; [done|]. split; [done|]. split.
  - apply Hkeys. exists "/tmp/releases/v0.14.1/fake-service-linux". by vm_compute.
  - apply Hsort.
Defined.

Lemma GetInstalledVersion_unconstrained_panics_witness :
  valid_iteration Bench.forwards /\
  ioutil_ReadDir (Platform := Bench.offline) Scenarios.with_stray
    (ReleasesPath Bench.options) = Ok Scenarios.with_stray /\
  ".DS_Store" ∈ Scenarios.with_stray /\ ~ parses ".DS_Store" /\
  GetInstalledVersion (W := Bench.offline) Bench.options Bench.forwards
    Scenarios.with_stray "" = Panic.
Proof.
  assert (~ parses ".DS_Store") as Hbad.
  { intros Hp%parsesb_spec. by vm_compute in Hp. }
  assert (".DS_Store" ∈ Scenarios.with_stray) as Hin by (by left).
  split_and!; [exact forwards_valid|reflexivity|done..|].
  exact (GetInstalledVersion_unconstrained_panics (W := Bench.offline)
           Bench.options Bench.forwards Scenarios.with_stray Scenarios.with_stray
           ".DS_Store" forwards_valid eq_refl Hin Hbad).
Defined.

Lemma GetLatestReleaseURL_unconstrained_panics_witness :
  valid_iteration Bench.backwards /\
  ~ parses (TagName (Bench.release "latest")) /\
  asset_matches (W := Bench.github_with_latest) Bench.options
    (Bench.release "latest") (Bench.asset "fake-service-linux" "latest") /\
  GetLatestReleaseURL (W := Bench.github_with_latest) Bench.options
    Bench.backwards "" = Panic.
Proof.
  assert (~ parses (TagName (Bench.release "latest"))) as Hbad.
  { intros Hp%parsesb_spec. by vm_compute in Hp. }
  split_and!; [exact backwards_valid|done|reflexivity|].
  apply (GetLatestReleaseURL_unconstrained_panics (W := Bench.github_with_latest)
           Bench.options Bench.backwards
           [Bench.release "latest"; Bench.release "v0.14.1"]
           (Bench.release "latest") (Bench.asset "fake-service-linux" "latest")
           backwards_valid eq_refl); [by left|by right; left|reflexivity|done].
Defined.

Lemma selector_error_iff_witness :
  ListReleases (W := Bench.github_with_latest) Bench.options "~0.14.0" =
    Err (Errorf "Invalid sematic version constraint"
           (Errorf "Invalid sematic version" Masterminds.ErrInvalidSemVer)) /\
  GetLatestReleaseURL (W := Bench.github_with_latest) Bench.options
    Bench.forwards "~0.14.0" =
    Return ("", "", Some (Errorf "Invalid sematic version constraint"
                            (Errorf "Invalid sematic version"
                               Masterminds.ErrInvalidSemVer))).
Proof.
  split; [reflexivity|].
  apply (proj1 (selector_error_iff (W := Bench.github_with_latest) Bench.options
                  Bench.forwards [] "~0.14.0" "" "" _)).
  by split_and!.
Defined.

Lemma New_fills_blanks_witness :
  GOOS Scenarios.blank = "" /\ GOARCH Scenarios.blank <> "" /\
  GOOS (New "linux" "amd64" Scenarios.blank) = "linux" /\
  GOARCH (New "linux" "amd64" Scenarios.blank) = "arm64" /\
  New "linux" "amd64" (New "linux" "amd64" Scenarios.blank) =
    New "linux" "amd64" Scenarios.blank.
Proof.
  destruct (New_fills_blanks "linux" "amd64" Scenarios.blank)
    as (_ & Harch & Hos & _ & _ & _ & _ & _ & _ & Hidem).
  split_and!; [done|done|by apply Hos|by apply Harch|exact Hidem].
Defined.

Lemma downloaded_release_is_listed_witness :
  Join_nests (W := Bench.github) /\
  DownloadRelease (W := Bench.github) Bench.options "v0.14.1"
    (Bench.url_of "v0.14.1") [] =
    (Ok "/tmp/releases/v0.14.1/fake-service-linux", []) /\
  "v0.14.1" ∈ Scenarios.with_stray /\ admitted "~0.14.0" "v0.14.1" /\
  exists m, ListInstalledVersions (W := Bench.github) Bench.options
              Scenarios.with_stray "~0.14.0" = Ok m /\
            m !! "v0.14.1" = Some "/tmp/releases/v0.14.1/fake-service-linux".
Proof.
  assert (DownloadRelease (W := Bench.github) Bench.options "v0.14.1"
            (Bench.url_of "v0.14.1") [] =
          (Ok "/tmp/releases/v0.14.1/fake-service-linux", [])) as Hdl.
  { by vm_compute. }
  assert ("v0.14.1" ∈ Scenarios.with_stray) as Hin by (right; by left).
  assert (admitted "~0.14.0" "v0.14.1") as Hadm by (right; reflexivity).
  split_and!; [apply join_slash_nests|done..|].
  exact (downloaded_release_is_listed (W := Bench.github) Bench.options "v0.14.1"
           (Bench.url_of "v0.14.1") [] _ [] Scenarios.with_stray
           Scenarios.with_stray "~0.14.0" (join_slash_nests _) Hdl eq_refl Hin Hadm).
Defined.

Lemma legacy_ListReleases_succeeds_iff_witness :
  client_ListReleases (Platform := Bench.github_with_latest)
    (Legacy.Organization Scenarios.legacy_options)
    (Legacy.Repo Scenarios.legacy_options) =
    Ok [Bench.release "latest"; Bench.release "v0.14.1"] /\
  (exists m, Legacy.ListReleases (W := Bench.github_with_latest)
               Scenarios.legacy_options "~0.14.0" = Ok m) /\
  Legacy.ListReleases (W := Bench.github_with_latest)
    Scenarios.legacy_options "~0.14.0" =
    Ok {[ "v0.14.1" := Bench.url_of "v0.14.1" ]}.
Proof.
  split_and!; [reflexivity| |by vm_compute].
  apply (legacy_ListReleases_succeeds_iff (W := Bench.github_with_latest)
           Scenarios.legacy_options "~0.14.0" _ eq_refl).
  right. right. by eexists.
Defined.

Lemma legacy_ListReleases_agrees_witness :
  ListReleases (W := Bench.github) (of_legacy Scenarios.legacy_options) "~0.14.0" =
    Ok {[ "v0.14.1" := Bench.url_of "v0.14.1" ]} /\
  Legacy.ListReleases (W := Bench.github) Scenarios.legacy_options "~0.14.0" =
    Ok {[ "v0.14.1" := Bench.url_of "v0.14.1" ]} /\
  Legacy.ListReleases (W := Bench.github) Scenarios.legacy_options "~0.14.0" =
    ListReleases (W := Bench.github) (of_legacy Scenarios.legacy_options) "~0.14.0".
Proof.
  assert (ListReleases (W := Bench.github) (of_legacy Scenarios.legacy_options)
            "~0.14.0" = Ok {[ "v0.14.1" := Bench.url_of "v0.14.1" ]}) as Hlist.
  { by vm_compute. }
  destruct (legacy_ListReleases_agrees (W := Bench.github)
              Scenarios.legacy_options "~0.14.0" _ eq_refl) as [Hsame Heq].
  split_and!; [done|by apply Hsame|].
  apply Heq; [exact bench_tags_parse|by eexists].
Defined.

Lemma legacy_ListInstalledVersions_agrees_witness :
  ioutil_ReadDir (Platform := Bench.offline) Scenarios.with_stray
    (Legacy.ReleasesPath Scenarios.legacy_options) = Ok Scenarios.with_stray /\
  ~ (exists m, Legacy.ListInstalledVersions (W := Bench.offline)
                 Scenarios.legacy_options Scenarios.with_stray "abd" = Ok m) /\
  Legacy.ListInstalledVersions (W := Bench.offline) Scenarios.legacy_options
    Scenarios.with_stray "~0.14.0" =
    Ok {[ "v0.14.1" := "/tmp/releases/v0.14.1/fake-service-linux" ]} /\
  ListInstalledVersions (W := Bench.offline) (of_legacy Scenarios.legacy_options)
    Scenarios.with_stray "~0.14.0" =
    Ok {[ "v0.14.1" := "/tmp/releases/v0.14.1/fake-service-linux" ]}.
Proof.
  destruct (legacy_ListInstalledVersions_agrees (W := Bench.offline)
              Scenarios.legacy_options Scenarios.with_stray Scenarios.with_stray
              "abd" eq_refl) as [Hiff _].
  destruct (legacy_ListInstalledVersions_agrees (W := Bench.offline)
              Scenarios.legacy_options Scenarios.with_stray Scenarios.with_stray
              "~0.14.0" eq_refl) as [_ Hsame].
  assert (Legacy.ListInstalledVersions (W := Bench.offline) Scenarios.legacy_options
            Scenarios.with_stray "~0.14.0" =
          Ok {[ "v0.14.1" := "/tmp/releases/v0.14.1/fake-service-linux" ]}) as Hlist.
  { by vm_compute. }
  split_and!; [reflexivity| |done|by apply Hsame].
  intros Hok. by apply Hiff in Hok as [[=]|[[=]|[c [=]]]].
Defined.

Lemma legacy_selectors_agree_witness :
  ListReleases (W := Bench.github) (of_legacy Scenarios.legacy_options) "~v0.12.0" =
    Ok {[ "v0.12.2" := Bench.url_of "v0.12.2" ]} /\
  Legacy.GetLatestReleaseURL (W := Bench.github) Scenarios.legacy_options
    Bench.forwards "~v0.12.0" =
  GetLatestReleaseURL (W := Bench.github) (of_legacy Scenarios.legacy_options)
    Bench.forwards "~v0.12.0" /\
  Legacy.ListInstalledVersions (W := Bench.github) Scenarios.legacy_options
    Scenarios.with_stray "" =
    Ok {[ ".DS_Store" := "/tmp/releases/.DS_Store/fake-service-linux";
          "v0.14.1" := "/tmp/releases/v0.14.1/fake-service-linux" ]} /\
  Legacy.GetInstalledVersion (W := Bench.github) Scenarios.legacy_options
    Bench.forwards Scenarios.with_stray "" =
  GetInstalledVersion (W := Bench.github) (of_legacy Scenarios.legacy_options)
    Bench.forwards Scenarios.with_stray "".
Proof.
  assert (ListReleases (W := Bench.github) (of_legacy Scenarios.legacy_options)
            "~v0.12.0" = Ok {[ "v0.12.2" := Bench.url_of "v0.12.2" ]}) as Hremote.
  { by vm_compute. }
  assert (Legacy.ListInstalledVersions (W := Bench.github) Scenarios.legacy_options
            Scenarios.with_stray "" =
          Ok {[ ".DS_Store" := "/tmp/releases/.DS_Store/fake-service-linux";
                "v0.14.1" := "/tmp/releases/v0.14.1/fake-service-linux" ]}) as Hlocal.
  { by vm_compute. }
  split_and!; [done| |done|].
  - exact (proj1 (legacy_selectors_agree (W := Bench.github)
                    Scenarios.legacy_options Bench.forwards Scenarios.with_stray
                    "~v0.12.0" _) Hremote).
  - exact (proj2 (legacy_selectors_agree (W := Bench.github)
                    Scenarios.legacy_options Bench.forwards Scenarios.with_stray
                    "" _) Hlocal).
Defined.

Lemma SortMapKeys_panics_iff_witness :
  valid_iteration Bench.backwards /\
  is_Some (Bench.with_latest !! "latest") /\ ~ parses "latest" /\
  SortMapKeys Bench.backwards Bench.with_latest true = Panic /\
  ~ (exists k, is_Some (Bench.installed_catalog !! k) /\ ~ parses k).
Proof.
  assert (is_Some (Bench.with_latest !! "latest")) as Hin.
  { exists (Bench.url_of "latest"). by vm_compute. }
  assert (~ parses "latest") as Hbad.
  { intros Hp%parsesb_spec. by vm_compute in Hp. }
  split_and!; [exact backwards_valid|done..| |].
  - apply (proj2 (SortMapKeys_panics_iff Bench.backwards Bench.with_latest true
                    backwards_valid)). by exists "latest".
  - intros Hk.
    apply (proj2 (SortMapKeys_panics_iff Bench.backwards Bench.installed_catalog
                    false backwards_valid)) in Hk. by vm_compute in Hk.
Defined.
